(** * Pre-Trott constant search: a shallow embedding and its properties

    The notebook defines four helpers ([count_digits], [cf_to_real],
    [cf_to_trott_approx], [valid_trott]) and one recursive search
    ([trott_backtracking]).  Python integers are unbounded, so
    they are [Z]; Python strings are [string]; Python lists of terms are
    [list Z].  The [mpmath] context ([mp.prec] / [mp.dps]) and the lines
    written by [print] are the only mutable state, so they are threaded
    explicitly through a small state-and-exception monad. *)

From Stdlib Require Import ZArith NArith Nnat List String Ascii Bool Lia.
From Stdlib Require Import QArith Qround Qabs.
From Stdlib Require Import Sorted.
From Stdlib Require Decimal DecimalString DecimalFacts DecimalPos.
Import ListNotations.

#[local] Open Scope string_scope.
#[local] Open Scope Z_scope.
#[local] Open Scope list_scope.

(** ** Python built-ins used by the notebook *)

Module Py.

(** [str(n)] for an [int]: canonical base-10 digits, a leading [-] for
    negatives, ["0"] for zero. *)
Definition str (n : Z) : string := DecimalString.NilZero.string_of_int (Z.to_int n).

(** [s[:n]] for [n >= 0]: the first [min n (len s)] characters. *)
Definition slice_to (n : Z) (s : string) : string :=
  String.substring 0 (Z.to_nat n) s.

(** ["".join(l)] *)
Definition join (l : list string) : string := String.concat "" l.

(** [range(lo, hi)] *)
Definition range (lo hi : Z) : list Z :=
  map (fun i => lo + Z.of_nat i) (seq 0 (Z.to_nat (hi - lo))).

End Py.

(** ** Digit Counter *)

(** The inner [while num > 0] loop.  It is not structurally recursive, so
    it carries a fuel; [None] means the fuel ran out before the loop
    condition became false. *)
Fixpoint count_digits_while (fuel : nat) (num total : Z) : option Z :=
  if num >? 0 then
    match fuel with
    | O => None
    | S fuel' => count_digits_while fuel' (num / 10) (total + 1)
    end
  else Some total.

(** One fuel unit per binary digit of [num] is always enough (see
    [count_digits_while_fuel]). *)
Definition while_fuel (num : Z) : nat := S (Z.to_nat (Z.log2 num)).

(** The outer [for num in cf_list] loop, [total] being the accumulator. *)
Fixpoint count_digits_for (cf_list : list Z) (total : Z) : option Z :=
  match cf_list with
  | [] => Some total
  | num :: rest =>
      match count_digits_while (while_fuel num) num total with
      | Some total' => count_digits_for rest total'
      | None => None
      end
  end.

Definition count_digits (cf_list : list Z) : option Z :=
  count_digits_for cf_list 0.

(** ** Trott-Target Formatter *)

Definition cf_to_trott_approx (cf_list : list Z) : string :=
  String.append "0." (Py.join (map Py.str cf_list)).


(** ** State and exceptions

    The only exception the notebook's code can meet is the one [mpmath]
    raises on a division by zero.  [OutOfFuel] is not a Python outcome: it
    is the answer of a fuelled loop of this model whose fuel ran out. *)

Inductive exn : Type := ZeroDivisionError.

Inductive outcome (A : Type) : Type :=
| Done (a : A)
| Raised (e : exn)
| OutOfFuel.
Arguments Done {A} a.
Arguments Raised {A} e.
Arguments OutOfFuel {A}.

(** The [mp] context of [mpmath]: the working precision in bits and the
    number of decimal digits shown by [str]. *)
Record mp_context : Type := MpContext { prec : Z; dps : Z }.

(** The interpreter state: the [mp] context and the sequences printed
    so far, oldest first. *)
Record world : Type := World { mp : mp_context; printed : list (list Z) }.

Definition M (A : Type) : Type := world -> outcome A * world.

Definition ret {A} (a : A) : M A := fun w => (Done a, w).

Definition bind {A B} (m : M A) (k : A -> M B) : M B :=
  fun w =>
    match m w with
    | (Done a, w') => k a w'
    | (Raised e, w') => (Raised e, w')
    | (OutOfFuel, w') => (OutOfFuel, w')
    end.

Definition raise {A} (e : exn) : M A := fun w => (Raised e, w).

Definition of_fuelled {A} (o : option A) : M A :=
  fun w => match o with Some a => (Done a, w) | None => (OutOfFuel, w) end.

Definition get_mp : M mp_context := fun w => (Done (mp w), w).

(** [print("VALID: {}".format(str(v)), file=file)]: the line written is
    fixed by [v], so [v] itself is recorded; where the line goes ([file])
    is left out. *)
Definition print (v : list Z) : M unit :=
  fun w => (Done tt, World (mp w) (printed w ++ [v])).

Declare Scope monad_scope.
Delimit Scope monad_scope with monad.
Notation "x <- m ;; k" := (bind m (fun x => k))
  (at level 61, m at next level, right associativity) : monad_scope.
Notation "m ;; k" := (bind m (fun _ => k))
  (at level 61, right associativity) : monad_scope.
#[local] Open Scope monad_scope.

(** A Python [for x in l] loop whose body updates one accumulator. *)
Fixpoint for_each {A B} (l : list B) (body : A -> B -> M A) (acc : A) : M A :=
  match l with
  | [] => ret acc
  | x :: l' => acc' <- body acc x ;; for_each l' body acc'
  end.

(** ** The arbitrary-precision provider

    [mpmath] is an external library: the notebook only relies on the
    operations below.  The code is embedded once, over any provider;
    [Exact] and [Mpmath] further down are two instances. *)

Class Provider : Type := {
  mpf : Type;
  (** conversions between decimal digits and bits of precision *)
  dps_to_prec : Z -> Z;
  prec_to_dps : Z -> Z;
  (** [mpf(n)] for an [int] [n], at [prec] bits *)
  mpf_of_int : Z -> Z -> mpf;
  (** [mpf(x)] for an [mpf] [x], at [prec] bits *)
  mpf_pos : Z -> mpf -> mpf;
  (** [n + x] for an [int] [n] and an [mpf] [x], at [prec] bits *)
  mpf_add_int : Z -> Z -> mpf -> mpf;
  (** [n / x] for an [int] [n] and an [mpf] [x], at [prec] bits;
      [None] when [x] is zero *)
  mpf_rdiv_int : Z -> Z -> mpf -> option mpf;
  (** [str(x)] with [dps] significant digits *)
  mpf_str : Z -> mpf -> string
}.

Section Program.

Context {P : Provider}.

(** A value held by [curr]: the [int] it starts as, or an [mpf]. *)
Inductive pyval : Type :=
| PyInt (n : Z)
| PyMpf (x : mpf).

(** [mp.dps = n] and [mp.prec = n]. *)
Definition set_dps (n : Z) : mp_context :=
  MpContext (dps_to_prec n) (Z.max 1 n).

Definition set_prec (n : Z) : mp_context :=
  MpContext (Z.max 1 n) (prec_to_dps n).

(** [with mp.extradps(n): body]: the block runs with [n] more digits;
    leaving it, normally or not, assigns the saved [mp.prec] back. *)
Definition extradps {A} (n : Z) (body : M A) : M A :=
  fun w =>
    let origp := prec (mp w) in
    let '(r, w') := body (World (set_dps (dps (mp w) + n)) (printed w)) in
    (r, World (set_prec origp) (printed w')).

(** ** Precision-Scaled CF Evaluator *)

(** [item + curr] *)
Definition py_add (p : Z) (item : Z) (curr : pyval) : pyval :=
  match curr with
  | PyInt c => PyInt (item + c)
  | PyMpf x => PyMpf (mpf_add_int p item x)
  end.

(** [mpf(v)] *)
Definition py_mpf (p : Z) (v : pyval) : mpf :=
  match v with
  | PyInt n => mpf_of_int p n
  | PyMpf x => mpf_pos p x
  end.

(** The loop body [curr = 1 / mpf(item + curr)]. *)
Definition cf_step (curr : pyval) (item : Z) : M pyval :=
  c <- get_mp ;;
  match mpf_rdiv_int (prec c) 1 (py_mpf (prec c) (py_add (prec c) item curr)) with
  | Some q => ret (PyMpf q)
  | None => raise ZeroDivisionError
  end.

Definition cf_to_real (cf_list : list Z) (precision : Z) : M pyval :=
  extradps (precision + 1) (for_each (rev cf_list) cf_step (PyInt 0)).

(** ** Validity Predicate *)

(** [str(v)] *)
Definition py_str (v : pyval) : M string :=
  c <- get_mp ;;
  ret (match v with
       | PyInt n => Py.str n
       | PyMpf x => mpf_str (dps c) x
       end).

Definition valid_trott (cf_list : list Z) : M bool :=
  d <- of_fuelled (count_digits cf_list) ;;
  let precision := d + 2 in
  extradps (precision + 1)
    (v <- cf_to_real cf_list precision ;;
     s <- py_str v ;;
     let real := Py.slice_to precision s in
     let want := cf_to_trott_approx cf_list in
     ret (String.eqb real want)).

(** ** Backtracking Search Engine *)

(** The first loop: collect the valid one-term extensions. *)
Definition collect_valid (current_cf : list Z) (valid : list (list Z)) (a : Z)
  : M (list (list Z)) :=
  let new_cf := current_cf ++ [a] in
  b <- valid_trott new_cf ;;
  ret (if b : bool then valid ++ [new_cf] else valid).

(** The recursion goes from [count] to [count + 1] under the guard
    [count < max_items]; [fuel] bounds the number of nested calls. *)
Fixpoint trott_backtracking (fuel : nat) (current_cf : list Z)
    (count max_items max_size : Z) : M unit :=
  if count <? max_items then
    match fuel with
    | O => fun w => (OutOfFuel, w)
    | S fuel' =>
        valid <- for_each (Py.range 1 max_size) (collect_valid current_cf) [] ;;
        match valid with
        | [] => ret tt
        | _ =>
            for_each valid
              (fun _ v =>
                 print v ;;
                 trott_backtracking fuel' v (count + 1) max_items max_size)
              tt
        end
    end
  else ret tt.

End Program.

(** ** A provider with exact rational arithmetic

    No rounding anywhere: an [mpf] is a rational number, the precision
    arguments are ignored.  [str] shows [dps] fractional digits,
    truncated. *)

Module Exact.

Definition rdiv_int (n : Z) (x : Q) : option Q :=
  if Qeq_bool x 0 then None else Some (inject_Z n / x)%Q.

Definition frac_digits (d : Z) (x : Q) : string :=
  let scaled := Z.abs (Qfloor (Qabs x * inject_Z (10 ^ d))) in
  let s := Py.str (scaled mod 10 ^ d) in
  String.append
    (string_of_list_ascii (repeat "0"%char (Z.to_nat d - String.length s))) s.

Definition to_str (d : Z) (x : Q) : string :=
  String.append (if Qle_bool 0 x then "" else "-")
    (String.append (Py.str (Qfloor (Qabs x)))
       (String.append "." (frac_digits d x))).

Definition provider : Provider := {|
  mpf := Q;
  dps_to_prec := fun n => n;
  prec_to_dps := fun n => n;
  mpf_of_int := fun _ n => inject_Z n;
  mpf_pos := fun _ x => x;
  mpf_add_int := fun _ n x => (inject_Z n + x)%Q;
  mpf_rdiv_int := fun _ n x => rdiv_int n x;
  mpf_str := to_str
|}.

(** The rational number a value stands for. *)
Definition to_Q (v : @pyval provider) : Q :=
  match v with
  | PyInt n => inject_Z n
  | PyMpf x => x
  end.

End Exact.

(** The continued fraction [1/(a1 + 1/(a2 + ... + 1/an))], read from the
    front; the empty fraction is [0]. *)
Fixpoint cf_value (l : list Z) : Q :=
  match l with
  | [] => 0%Q
  | a :: rest => (1 / (inject_Z a + cf_value rest))%Q
  end.

(** ** A provider that follows [mpmath]

    [mpmath] is a library the notebook imports, not part of it.  This
    module writes down, on integers, what the library routines the
    notebook reaches compute: [normalize], [from_man_exp], [mpf_pos],
    [mpf_add], [mpf_mul], [mpf_div], [mpf_rdiv_int], [dps_to_prec],
    [prec_to_dps], [to_fixed], [bin_to_radix], [to_digits_exp] and
    [to_str].  A number is kept as [(sign, man, exp, bc)], standing for
    [(-1)^sign * man * 2^exp] with [man] odd (or zero) and [bc] its bit
    count; every result is rounded to [prec] bits, to nearest, ties to
    even, which is the rounding the [mp] context uses.  Infinities and
    NaN are never built by the notebook (a division by zero raises), so
    they are left out. *)

Module Mpmath.

Record raw : Type := Raw { sign : Z; man : Z; exp : Z; bc : Z }.

Definition fzero : raw := Raw 0 0 0 0.

Definition bitcount (n : Z) : Z := if n =? 0 then 0 else Z.log2 n + 1.

Fixpoint trailing_pos (p : positive) : Z :=
  match p with
  | xO p' => trailing_pos p' + 1
  | _ => 0
  end.

(** Number of trailing zero bits. *)
Definition trailing (n : Z) : Z :=
  match n with
  | Zpos p => trailing_pos p
  | _ => 0
  end.

(** [normalize]: cut the mantissa down to [prec] bits (round to nearest,
    ties to even), then strip the trailing zero bits. *)
Definition round_man (man n : Z) : Z :=
  let t := Z.shiftr man (n - 1) in
  if Z.testbit t 0 && (Z.testbit t 1 || negb (Z.land man (Z.ones (n - 1)) =? 0))
  then Z.shiftr t 1 + 1
  else Z.shiftr t 1.

Definition normalize (sign man exp bc prec : Z) : raw :=
  if man =? 0 then fzero
  else
    let n := bc - prec in
    let '(man1, exp1, bc1) :=
      if n >? 0 then (round_man man n, exp + n, prec) else (man, exp, bc) in
    let t := trailing man1 in
    let man2 := Z.shiftr man1 t in
    Raw sign man2 (exp1 + t) (if man2 =? 1 then 1 else bc1 - t).

(** [from_man_exp] and [from_int] without a precision: exact. *)
Definition from_man_exp (m e : Z) : raw :=
  let man := Z.abs m in
  if man =? 0 then fzero
  else
    let t := trailing man in
    Raw (if m <? 0 then 1 else 0) (Z.shiftr man t) (e + t) (bitcount man - t).

Definition from_int (n : Z) : raw := from_man_exp n 0.

Definition mpf_pos (s : raw) (prec : Z) : raw :=
  normalize (sign s) (man s) (exp s) (bc s) prec.

(** Sign and magnitude of [s + t] for two mantissas on one exponent. *)
Definition add_aligned (ssign sman tsign tman : Z) : Z * Z :=
  if ssign =? tsign then (ssign, tman + sman)
  else
    let man := if ssign =? 1 then tman - sman else sman - tman in
    if man >=? 0 then (0, man) else (1, - man).

Definition mpf_add (s t : raw) (prec : Z) : raw :=
  if negb (man s =? 0) && negb (man t =? 0) then
    let offset := exp s - exp t in
    if offset >? 0 then
      if (offset >? 100) && (bc s + exp s - bc t - exp t >? prec + 4) then
        (* [t] is far below [s]: only perturb [s] *)
        let sman := Z.shiftl (man s) (prec + 4)
                    + (if sign t =? sign s then 1 else -1) in
        normalize (sign s) sman (exp s - (prec + 4)) (bitcount sman) prec
      else
        let '(sg, m) :=
          add_aligned (sign s) (Z.shiftl (man s) offset) (sign t) (man t) in
        normalize sg m (exp t) (bitcount m) prec
    else if offset <? 0 then
      if (offset <? -100) && (bc t + exp t - bc s - exp s >? prec + 4) then
        let tman := Z.shiftl (man t) (prec + 4)
                    + (if sign s =? sign t then 1 else -1) in
        normalize (sign t) tman (exp t - (prec + 4)) (bitcount tman) prec
      else
        let '(sg, m) :=
          add_aligned (sign s) (man s) (sign t) (Z.shiftl (man t) (- offset)) in
        normalize sg m (exp s) (bitcount m) prec
    else
      let '(sg, m) := add_aligned (sign s) (man s) (sign t) (man t) in
      normalize sg m (exp t) (bitcount m) prec
  else if man s =? 0 then mpf_pos t prec
  else mpf_pos s prec.

Definition mpf_mul (s t : raw) (prec : Z) : raw :=
  let m := man s * man t in
  normalize (Z.lxor (sign s) (sign t)) m (exp s + exp t) (bitcount m) prec.

(** Division: the quotient is taken with a few bits to spare and a
    sticky bit is appended when the division is inexact. [None] is
    [ZeroDivisionError]. *)
Definition div_man (sg num den e extra prec : Z) : raw :=
  let quot := Z.shiftl num extra / den in
  let rem := Z.shiftl num extra mod den in
  if rem =? 0 then normalize sg quot (e - extra) (bitcount quot) prec
  else
    let quot' := Z.shiftl quot 1 + 1 in
    normalize sg quot' (e - (extra + 1)) (bitcount quot') prec.

(** [mpf_div] once the divisor is known not to be zero. *)
Definition div_nonzero (s t : raw) (prec : Z) : raw :=
  if man s =? 0 then fzero
  else
    let sg := Z.lxor (sign s) (sign t) in
    if man t =? 1 then normalize sg (man s) (exp s - exp t) (bc s) prec
    else
      let extra := Z.max 5 (prec - bc s + bc t + 5) in
      div_man sg (man s) (man t) (exp s - exp t) extra prec.

Definition mpf_div (s t : raw) (prec : Z) : option raw :=
  if man t =? 0 then None else Some (div_nonzero s t prec).

Definition mpf_rdiv_int (n : Z) (t : raw) (prec : Z) : option raw :=
  if (n =? 0) || (man t =? 0) then mpf_div (from_int n) t prec
  else
    let sg := if n <? 0 then Z.lxor (sign t) 1 else sign t in
    Some (div_man sg (Z.abs n) (man t) (- exp t) (prec + bc t + 4) prec).

(** *** Python floats

    The library sizes its buffers with a few [float] operations.  A
    Python [float] is a binary64 number and its operations are rounded to
    nearest on 53 bits, so the same functions serve at [prec = 53] (the
    values met here are far from the overflow and subnormal ranges). *)

(** [math.log(10, 2)], which is also the literal [3.3219280948873626]:
    [0x1.a934f0979a372p+1]. *)
Definition LOG2_10 : raw := Raw 0 3740158532571577 (-50) 52.

Definition float_of_int (n : Z) : raw := mpf_pos (from_int n) 53.

Definition float_half : raw := Raw 0 1 (-1) 1.

Definition with_sign (s : raw) (m : Z) : Z := if sign s =? 1 then - m else m.

(** [int(x)]: towards zero. *)
Definition float_int (x : raw) : Z :=
  with_sign x
    (if exp x >=? 0 then Z.shiftl (man x) (exp x)
     else Z.shiftr (man x) (- exp x)).

(** [round(x)]: to nearest, ties to even. *)
Definition float_round (x : raw) : Z :=
  with_sign x
    (if exp x >=? 0 then Z.shiftl (man x) (exp x)
     else
       let n := - exp x in
       let q := Z.shiftr (man x) n in
       let r := Z.land (man x) (Z.ones n) in
       let half := Z.shiftl 1 (n - 1) in
       if (r >? half) || ((r =? half) && Z.odd q) then q + 1 else q).

(** [n / math.log(10, 2)] *)
Definition float_div_const (n : Z) : raw :=
  div_nonzero (float_of_int n) LOG2_10 53.

Definition prec_to_dps (n : Z) : Z :=
  Z.max 1 (float_round (float_div_const n) - 1).

Definition dps_to_prec (n : Z) : Z :=
  Z.max 1 (float_round (mpf_mul (float_of_int (n + 1)) LOG2_10 53)).

(** *** [str] *)

Definition to_fixed (s : raw) (prec : Z) : Z :=
  let offset := exp s + prec in
  if offset >=? 0 then Z.shiftl (with_sign s (man s)) offset
  else Z.shiftr (with_sign s (man s)) (- offset).

Definition bin_to_radix (x xbits base bdigits : Z) : Z :=
  Z.shiftr (x * base ^ bdigits) xbits.

Definition len (s : string) : Z := Z.of_nat (String.length s).

(** [to_digits_exp]: the decimal digits of [|s|], rounded towards zero,
    and the decimal exponent.  [mpmath] first rescales by a power of ten
    when [|exp + bc| > 3500]; that route is not followed here: numbers
    are rendered by the direct route whatever their magnitude. *)
Definition to_digits_exp (s : raw) (dps : Z) : string * string * Z :=
  if man s =? 0 then ("", "0", 0)
  else
    let bitprec := float_int (mpf_mul (float_of_int dps) LOG2_10 53) + 10 in
    let fixprec := Z.max (bitprec - exp s - bc s) 0 in
    let fixdps :=
      float_int (mpf_add (float_div_const fixprec) float_half 53) in
    let sf := to_fixed (Raw 0 (man s) (exp s) (bc s)) fixprec in
    let sd := bin_to_radix sf fixprec 10 fixdps in
    let digits := Py.str sd in
    (if sign s =? 1 then "-" else "", digits, len digits - fixdps - 1).

Definition zeros (n : Z) : string :=
  string_of_list_ascii (repeat "0"%char (Z.to_nat n)).

(** The digit string plus one in its last place; [None] when every digit
    is a nine. *)
Fixpoint succ_rev (rev_digits : list ascii) : option (list ascii) :=
  match rev_digits with
  | [] => None
  | c :: rest =>
      if Ascii.eqb c "9" then option_map (cons "0"%char) (succ_rev rest)
      else Some (ascii_of_nat (S (nat_of_ascii c)) :: rest)
  end.

Definition is_round_up (c : option ascii) : bool :=
  match c with
  | Some c => existsb (Ascii.eqb c) (list_ascii_of_string "56789")
  | None => false
  end.

Definition round_digits (digits : string) (exponent dps : Z) : string * Z :=
  let kept := Py.slice_to dps digits in
  if (len digits >? dps) && is_round_up (String.get (Z.to_nat dps) digits) then
    match succ_rev (rev (list_ascii_of_string kept)) with
    | Some l => (string_of_list_ascii (rev l), exponent)
    | None => (String.append "1" (zeros (dps - 1)), exponent + 1)
    end
  else (kept, exponent).

Fixpoint drop_zeros (rev_s : list ascii) : list ascii :=
  match rev_s with
  | c :: rest => if Ascii.eqb c "0" then drop_zeros rest else rev_s
  | [] => []
  end.

(** [s.rstrip('0')] *)
Definition rstrip0 (s : string) : string :=
  string_of_list_ascii (rev (drop_zeros (rev (list_ascii_of_string s)))).

Definition ends_with_dot (s : string) : bool :=
  match rev (list_ascii_of_string s) with
  | c :: _ => Ascii.eqb c "."
  | [] => false
  end.

Definition slice_from (n : Z) (s : string) : string :=
  String.substring (Z.to_nat n) (String.length s - Z.to_nat n) s.

(** [to_str] for [dps >= 1], with the defaults [str] uses. *)
Definition to_str (s : raw) (dps : Z) : string :=
  if man s =? 0 then "0.0"
  else
    let min_fixed := Z.min (- (dps / 3)) (-5) in
    let max_fixed := dps in
    let '(sgn, digits0, exponent0) := to_digits_exp s (dps + 3) in
    let '(digits1, exponent1) := round_digits digits0 exponent0 dps in
    let '(digits2, split, exponent2) :=
      if (min_fixed <? exponent1) && (exponent1 <? max_fixed) then
        if exponent1 <? 0
        then (String.append (zeros (- exponent1)) digits1, 1, 0)
        else
          let split := exponent1 + 1 in
          (if split >? dps
           then String.append digits1 (zeros (split - dps))
           else digits1, split, 0)
      else (digits1, 1, exponent1) in
    let digits3 :=
      String.append (Py.slice_to split digits2)
        (String.append "." (slice_from split digits2)) in
    let digits4 := rstrip0 digits3 in
    let digits5 :=
      if ends_with_dot digits4 then String.append digits4 "0" else digits4 in
    if exponent2 =? 0 then String.append sgn digits5
    else if exponent2 >=? 0
    then String.append sgn
           (String.append digits5 (String.append "e+" (Py.str exponent2)))
    else String.append sgn
           (String.append digits5 (String.append "e" (Py.str exponent2))).

Definition provider : Provider :=
  Build_Provider raw dps_to_prec prec_to_dps
    (fun p n => mpf_pos (from_int n) p)
    (fun p x => mpf_pos x p)
    (fun p n x => mpf_add x (from_int n) p)
    (fun p n x => mpf_rdiv_int n x p)
    (fun d x => to_str x d).

(** The context [mpmath] starts with: 53 bits, 15 digits. *)
Definition default_context : mp_context := MpContext 53 15.

Definition start : world := World default_context [].

(** The rational number an [mpf] stands for. *)
Definition value (x : raw) : Q :=
  let m := with_sign x (man x) in
  if exp x >=? 0 then inject_Z (m * 2 ^ exp x)
  else Qmake m (Z.to_pos (2 ^ (- exp x))).

Definition to_Q (v : @pyval provider) : Q :=
  match v with
  | PyInt n => inject_Z n
  | PyMpf x => value x
  end.

(** [m * 2^e >= 1] and [m * 2^e <= 1], for a positive mantissa [m]. *)
Definition ge1 (m e : Z) : Prop := if e >=? 0 then 1 <= m else 2 ^ (- e) <= m.

Definition le1 (m e : Z) : Prop := e <= 0 /\ m <= 2 ^ (- e).

(** Positive, with a correct bit count. *)
Definition pwf (x : raw) : Prop :=
  sign x = 0 /\ 0 < man x /\ bc x = bitcount (man x).

Definition ge_one (x : raw) : Prop := pwf x /\ ge1 (man x) (exp x).

Definition unit_pos (x : raw) : Prop := pwf x /\ le1 (man x) (exp x).

End Mpmath.

(** ** Notions used by the statements *)

(** The update [curr = 1 / (t + curr)] on rationals. *)
Definition cf_update (curr : Q) (t : Z) : Q := (1 / (inject_Z t + curr))%Q.

(** Sum of the lengths of the terms' decimal strings. *)
Definition digit_total (S : list Z) : Z :=
  fold_right (fun t acc => Z.of_nat (String.length (Py.str t)) + acc) 0 S.

Section Notions.

Context {P : Provider}.

(** A context in which [mp.prec = mp.prec] changes nothing: what every
    assignment to [mp.prec] leaves behind. *)
Definition ctx_ok (c : mp_context) : Prop := set_prec (prec c) = c.

(** Computations that read and write the [mp] context only: they leave
    the printed lines alone and do not depend on them. *)
Definition mp_only {A} (m : M A) : Prop :=
  forall w,
    m w = (fst (m (World (mp w) [])),
           World (mp (snd (m (World (mp w) [])))) (printed w)).

(** The verdict in a given context, whatever was printed. *)
Definition verdict (c : mp_context) (S : list Z) : outcome bool :=
  fst (valid_trott S (World c [])).

(** [str(cf_to_real(S, precision))], evaluated inside the block
    [with mp.extradps(precision + 1)] that [valid_trott] opens. *)
Definition rendered (S : list Z) (precision : Z) (w : world) : outcome string :=
  fst ((v <- cf_to_real S precision ;; py_str v)
         (World (set_dps (dps (mp w) + (precision + 1))) (printed w))).

Definition is_prefix (p v : list Z) : Prop := exists rest, v = p ++ rest.

(** In [new], every prefix of an entry that is longer than [n] and
    shorter than the entry stands before the entry. *)
Definition closed_above (n : nat) (new : list (list Z)) : Prop :=
  forall l1 v l2 p,
    new = l1 ++ v :: l2 ->
    is_prefix p v -> (n < List.length p < List.length v)%nat ->
    In p l1.

(** What the search may add to the printed lines when it is called on
    [cur] with [budget] levels left, in context [c]. *)
Definition reported_ok (c : mp_context) (cur : list Z) (budget max_size : Z)
    (new : list (list Z)) : Prop :=
  (forall v, In v new ->
     exists ext,
       v = cur ++ ext /\ ext <> [] /\
       Z.of_nat (List.length ext) <= budget /\
       Forall (fun t => 1 <= t < max_size) ext /\
       verdict c v = Done true)
  /\ closed_above (List.length cur) new.

(** The shape of what the search may print when it is called on [cur]
    with [budget] levels left: proper extensions of [cur], by at most
    [budget] terms taken from [range(1, max_size)]. *)
Definition shape_ok (cur : list Z) (budget max_size : Z)
    (new : list (list Z)) : Prop :=
  forall v, In v new ->
    exists ext,
      v = cur ++ ext /\ ext <> [] /\
      Z.of_nat (List.length ext) <= budget /\
      Forall (fun t => 1 <= t < max_size) ext.

(** The running value of the evaluator is the initial [0] or an [mpf]
    in the range described by [unit_range]. *)
Definition curr_ok (unit_range : mpf -> Prop) (v : pyval) : Prop :=
  match v with
  | PyInt n => n = 0
  | PyMpf x => unit_range x
  end.

End Notions.

(** ** The other cells of the notebook *)

Section OtherCells.

Context {P : Provider}.

(** The "for-loop solution": three nested loops over
    [range(1, ITEM_MAX)], each level printing the sequences the
    predicate accepts and going one term deeper below them.  Its
    [print(a)] is recorded as the search's lines are, by the sequence
    printed. *)
Definition for_loop_solution (ITEM_MAX : Z) : M unit :=
  for_each (Py.range 1 ITEM_MAX)
    (fun _ i =>
       b <- valid_trott [i] ;;
       if b : bool then
         print [i] ;;
         for_each (Py.range 1 ITEM_MAX)
           (fun _ j =>
              b <- valid_trott [i; j] ;;
              if b : bool then
                print [i; j] ;;
                for_each (Py.range 1 ITEM_MAX)
                  (fun _ k =>
                     b <- valid_trott [i; j; k] ;;
                     if b : bool then print [i; j; k] else ret tt)
                  tt
              else ret tt)
           tt
       else ret tt)
    tt.

(** The cell that tries the sequences [[3, 329]], [[3, 3329]], ...: the
    body of its loop, with [prev] threaded through, and the loop itself
    from [prev = 29] over [range(2, stop)]; the notebook has
    [stop = 20]. *)
Definition family_step (prev : Z) (i : Z) : M Z :=
  let a := [3; prev + 3 * 10 ^ i] in
  let prev := prev + 3 * 10 ^ i in
  b <- valid_trott a ;;
  (if b : bool then print a else ret tt) ;;
  ret prev.

Definition family_loop (stop : Z) : M Z :=
  for_each (Py.range 2 stop) family_step 29.

End OtherCells.

(** ** The draft notebook

    [trott_constants.ipynb] has the same [count_digits] and an earlier
    evaluator: it works at [precision] digits exactly, starts from
    [mpf(0)] and does not convert the denominator. *)

Module Draft.

Section Evaluator.

Context {P : Provider}.

(** [with mp.workdps(n): body]: the block runs with [n] digits; leaving
    it, normally or not, assigns the saved [mp.prec] back. *)
Definition workdps {A} (n : Z) (body : M A) : M A :=
  fun w =>
    let origp := prec (mp w) in
    let '(r, w') := body (World (set_dps n) (printed w)) in
    (r, World (set_prec origp) (printed w')).

(** The loop body [curr = 1 / (item + curr)]. *)
Definition cf_step (curr : mpf) (item : Z) : M mpf :=
  c <- get_mp ;;
  match mpf_rdiv_int (prec c) 1 (mpf_add_int (prec c) item curr) with
  | Some q => ret q
  | None => raise ZeroDivisionError
  end.

Definition cf_to_real (cf_list : list Z) (precision : Z) : M mpf :=
  workdps precision
    (c <- get_mp ;;
     for_each (rev cf_list) cf_step (mpf_of_int (prec c) 0)).

End Evaluator.

End Draft.

(** ** Notions used by the further properties *)

(** Python's [<] on lists of integers. *)
Fixpoint list_lt (u v : list Z) : bool :=
  match u, v with
  | [], _ :: _ => true
  | a :: u', b :: v' => (a <? b) || ((a =? b) && list_lt u' v')
  | _, [] => false
  end.

Section FurtherNotions.

Context {P : Provider}.

(** One turn of a search that checks and reports in a single pass:
    test the extension of [cur] by [a] and, when it is valid, print it
    and go [below] it. *)
Definition extend_step (below : list Z -> M unit) (cur : list Z)
    (_ : unit) (a : Z) : M unit :=
  b <- valid_trott (cur ++ [a]) ;;
  if b : bool then print (cur ++ [a]) ;; below (cur ++ [a]) else ret tt.

(** Every non-empty prefix of [ext], put after [cur], is valid in the
    context [c]. *)
Definition fully_valid (c : mp_context) (cur ext : list Z) : Prop :=
  forall q, is_prefix q ext -> q <> [] -> verdict c (cur ++ q) = Done true.

(** Lines in strictly increasing order, all of them proper extensions
    of [cur]. *)
Definition listed_below (cur : list Z) (new : list (list Z)) : Prop :=
  StronglySorted (fun u v => list_lt u v = true) new /\
  Forall (fun x => exists ext, x = cur ++ ext /\ ext <> []) new.

End FurtherNotions.

(** What [normalize] returns at [prec] bits: zero, or an odd mantissa of
    at most [prec] bits with its bit count. *)
Definition normalized (prec : Z) (r : Mpmath.raw) : Prop :=
  r = Mpmath.fzero \/
  (0 < Mpmath.man r /\ Z.odd (Mpmath.man r) = true /\
   Mpmath.bc r = Mpmath.bitcount (Mpmath.man r) /\
   Mpmath.bc r <= prec).

Definition well_formed (r : Mpmath.raw) : Prop :=
  0 <= Mpmath.man r /\ Mpmath.bc r = Mpmath.bitcount (Mpmath.man r).

(** The two evaluators hold the same number: the final one starts from
    the [int] [0], the draft from [mpf(0)]. *)
Definition same_value (v : @pyval Mpmath.provider) (x : Mpmath.raw) : Prop :=
  (v = @PyInt Mpmath.provider 0 /\ x = Mpmath.fzero) \/
  (v = @PyMpf Mpmath.provider x /\ well_formed x).

(** A result of the draft evaluator, as the final evaluator holds it. *)
Definition as_pyval (r : outcome Mpmath.raw) : outcome (@pyval Mpmath.provider) :=
  match r with
  | Done x => Done (@PyMpf Mpmath.provider x)
  | Raised e => Raised e
  | OutOfFuel => OutOfFuel
  end.

(** * Properties *)

(** ** The digit counter *)

Section DigitCounter.

Lemma count_digits_while_nonpos fuel num total :
  num <= 0 -> count_digits_while fuel num total = Some total.
Proof.
  intros Hle. destruct fuel; simpl;
    destruct (Z.gtb_spec num 0); try lia; reflexivity.
Qed.

Lemma count_digits_while_enough fuel :
  forall num total,
    num < 2 ^ Z.of_nat fuel -> count_digits_while fuel num total <> None.
Proof.
  induction fuel as [|fuel IH]; intros num total Hlt.
  - rewrite count_digits_while_nonpos; [discriminate|].
    simpl in Hlt. lia.
  - cbn [count_digits_while].
    destruct (Z.gtb_spec num 0); [|discriminate].
    apply IH.
    rewrite Nat2Z.inj_succ, Z.pow_succ_r in Hlt by lia.
    assert (0 < 2 ^ Z.of_nat fuel) by (apply Z.pow_pos_nonneg; lia).
    apply Z.div_lt_upper_bound; lia.
Qed.

Lemma count_digits_while_fuel num total :
  count_digits_while (while_fuel num) num total <> None.
Proof.
  destruct (Z_le_gt_dec num 0) as [Hle|Hgt].
  - rewrite count_digits_while_nonpos by exact Hle. discriminate.
  - apply count_digits_while_enough. unfold while_fuel.
    rewrite Nat2Z.inj_succ, Z2Nat.id by apply Z.log2_nonneg.
    apply Z.log2_spec. lia.
Qed.

(** What the loop counts: the [k] with [10^(k-1) <= num < 10^k]. *)
Lemma count_digits_while_bounds fuel :
  forall num total r,
    0 < num ->
    count_digits_while fuel num total = Some r ->
    total < r /\ 10 ^ (r - total - 1) <= num < 10 ^ (r - total).
Proof.
  induction fuel as [|fuel IH]; intros num total r Hpos Hrun;
    cbn [count_digits_while] in Hrun;
    destruct (Z.gtb_spec num 0); try lia; try discriminate.
  destruct (Z_le_gt_dec (num / 10) 0) as [Hsmall|Hbig].
  - rewrite count_digits_while_nonpos in Hrun by exact Hsmall.
    injection Hrun as <-.
    replace (total + 1 - total - 1) with 0 by lia.
    replace (total + 1 - total) with 1 by lia.
    assert (num < 10).
    { destruct (Z_lt_ge_dec num 10); [assumption|].
      assert (1 <= num / 10) by (apply Z.div_le_lower_bound; lia). lia. }
    simpl. lia.
  - destruct (IH (num / 10) (total + 1) r ltac:(lia) Hrun) as (Hlt & Hlo & Hhi).
    split; [lia|].
    replace (r - total - 1) with (Z.succ (r - (total + 1) - 1)) by lia.
    replace (r - total) with (Z.succ (r - (total + 1))) by lia.
    rewrite !Z.pow_succ_r by lia.
    pose proof (Z.mul_div_le num 10 ltac:(lia)).
    pose proof (Z.mul_succ_div_gt num 10 ltac:(lia)).
    lia.
Qed.

Lemma pow10_bounds_unique num a b :
  0 < a -> 0 < b ->
  10 ^ (a - 1) <= num < 10 ^ a ->
  10 ^ (b - 1) <= num < 10 ^ b ->
  a = b.
Proof.
  intros Ha Hb [Hal Hah] [Hbl Hbh].
  destruct (Z.lt_trichotomy a b) as [Hlt|[Heq|Hgt]]; [|exact Heq|].
  - assert (10 ^ a <= 10 ^ (b - 1)) by (apply Z.pow_le_mono_r; lia). lia.
  - assert (10 ^ b <= 10 ^ (a - 1)) by (apply Z.pow_le_mono_r; lia). lia.
Qed.

(** The length of [str(n)], for a positive [n]. *)

Lemma string_of_uint_length d :
  String.length (DecimalString.NilEmpty.string_of_uint d) = Decimal.nb_digits d.
Proof. induction d; simpl; congruence. Qed.

Lemma usize_nb_digits d :
  DecimalPos.Unsigned.usize d = N.of_nat (Decimal.nb_digits d).
Proof.
  induction d; cbn [DecimalPos.Unsigned.usize Decimal.nb_digits];
    rewrite ?IHd, ?Nat2N.inj_succ; reflexivity.
Qed.

Lemma of_lu_upper d :
  (DecimalPos.Unsigned.of_lu d < 10 ^ DecimalPos.Unsigned.usize d)%N.
Proof.
  induction d; cbn [DecimalPos.Unsigned.of_lu DecimalPos.Unsigned.usize];
    rewrite ?N.pow_succ_r'; simpl (10 ^ 0)%N; lia.
Qed.

Lemma to_uint_unorm p : Decimal.unorm (Pos.to_uint p) = Pos.to_uint p.
Proof.
  rewrite <- DecimalPos.Unsigned.to_of, DecimalPos.Unsigned.of_to.
  reflexivity.
Qed.

Lemma to_uint_bounds p :
  let n := Z.of_nat (Decimal.nb_digits (Pos.to_uint p)) in
  0 < n /\ 10 ^ (n - 1) <= Zpos p < 10 ^ n.
Proof.
  intros n.
  pose proof (DecimalPos.Unsigned.of_to p) as Hof.
  rewrite DecimalPos.Unsigned.of_uint_alt in Hof.
  pose proof (to_uint_unorm p) as Hnorm.
  pose proof (DecimalPos.Unsigned.to_uint_nonzero p) as Hnz.
  assert (Hup : (N.pos p < 10 ^ N.of_nat (Decimal.nb_digits (Pos.to_uint p)))%N).
  { rewrite <- Hof, <- DecimalFacts.nb_digits_rev, <- usize_nb_digits.
    apply of_lu_upper. }
  assert (Hlow : (10 ^ N.of_nat (Nat.pred (Decimal.nb_digits (Pos.to_uint p)))
                  <= N.pos p)%N
                 /\ (0 < Decimal.nb_digits (Pos.to_uint p))%nat).
  { rewrite <- Hof. clear Hof Hup n.
    destruct (Pos.to_uint p) as [|u|u|u|u|u|u|u|u|u|u] eqn:E.
    1: { exfalso. revert Hnorm. discriminate. }
    1: { exfalso. rewrite DecimalFacts.unorm_D0 in Hnorm.
         destruct (DecimalFacts.unorm_0 u) as [H0 _].
         unfold Decimal.unorm in Hnorm.
         pose proof (DecimalFacts.nzhead_nonzero u u) as Hh.
         destruct (Decimal.nzhead u) eqn:Eh; try congruence. }
    all: unfold Decimal.rev; cbn [Decimal.revapp Decimal.nb_digits Nat.pred];
      rewrite DecimalPos.Unsigned.of_lu_revapp, usize_nb_digits;
      cbn [DecimalPos.Unsigned.of_lu]; split; nia. }
  destruct Hlow as [Hlow Hpos].
  unfold n. split; [lia|].
  split.
  - replace (Z.of_nat (Decimal.nb_digits (Pos.to_uint p)) - 1)
      with (Z.of_N (N.of_nat (Nat.pred (Decimal.nb_digits (Pos.to_uint p)))))
      by lia.
    change 10 with (Z.of_N 10). rewrite <- N2Z.inj_pow.
    change (Z.pos p) with (Z.of_N (N.pos p)). lia.
  - replace (Z.of_nat (Decimal.nb_digits (Pos.to_uint p)))
      with (Z.of_N (N.of_nat (Decimal.nb_digits (Pos.to_uint p)))) by lia.
    change 10 with (Z.of_N 10). rewrite <- N2Z.inj_pow.
    change (Z.pos p) with (Z.of_N (N.pos p)). lia.
Qed.

Lemma str_length_pos p :
  String.length (Py.str (Zpos p)) = Decimal.nb_digits (Pos.to_uint p).
Proof.
  unfold Py.str. cbn [Z.to_int DecimalString.NilZero.string_of_int].
  unfold DecimalString.NilZero.string_of_uint.
  pose proof (DecimalPos.Unsigned.to_uint_nonnil p) as Hnn.
  destruct (Pos.to_uint p) eqn:E; try congruence;
    rewrite <- E; apply string_of_uint_length.
Qed.

(** One positive number: the loop adds [len(str(num))]. *)
Lemma count_digits_while_str num total :
  0 < num ->
  count_digits_while (while_fuel num) num total
  = Some (total + Z.of_nat (String.length (Py.str num))).
Proof.
  intros Hpos.
  destruct (count_digits_while (while_fuel num) num total) as [r|] eqn:Hrun.
  2: { exfalso. exact (count_digits_while_fuel num total Hrun). }
  destruct (count_digits_while_bounds _ _ _ _ Hpos Hrun) as (Hlt & Hb).
  destruct num as [|p|p]; try lia.
  rewrite str_length_pos.
  destruct (to_uint_bounds p) as (Hn & Hb').
  f_equal.
  pose proof (pow10_bounds_unique (Zpos p) (r - total) _ ltac:(lia) Hn Hb Hb').
  lia.
Qed.


Lemma count_digits_for_pos S :
  forall total,
    Forall (fun t => 0 < t) S ->
    count_digits_for S total = Some (total + digit_total S).
Proof.
  induction S as [|t S IH]; intros total Hall; cbn [count_digits_for digit_total fold_right].
  - f_equal. lia.
  - inversion Hall as [|? ? Ht HS]; subst.
    rewrite count_digits_while_str by exact Ht.
    fold (digit_total S).
    rewrite IH by exact HS. f_equal. lia.
Qed.

Lemma count_digits_pos S :
  Forall (fun t => 0 < t) S -> count_digits S = Some (digit_total S).
Proof.
  intros Hall. unfold count_digits.
  rewrite count_digits_for_pos by exact Hall. reflexivity.
Qed.

(** The counter never runs out of fuel. *)
Lemma count_digits_for_total S :
  forall total, exists d, count_digits_for S total = Some d.
Proof.
  induction S as [|t S IH]; intros total; cbn [count_digits_for].
  - eauto.
  - destruct (count_digits_while (while_fuel t) t total) eqn:E.
    + apply IH.
    + exfalso. exact (count_digits_while_fuel _ _ E).
Qed.

Lemma count_digits_total S : exists d, count_digits S = Some d.
Proof. apply count_digits_for_total. Qed.

(** A term that is zero or negative adds nothing. *)
Lemma count_digits_for_skip S :
  forall total,
    count_digits_for S total
    = count_digits_for (filter (fun t => 0 <? t) S) total.
Proof.
  induction S as [|t S IH]; intros total; [reflexivity|].
  cbn [count_digits_for filter].
  destruct (Z.ltb_spec 0 t) as [Hpos|Hnp].
  - cbn [count_digits_for].
    destruct (count_digits_while (while_fuel t) t total); [apply IH|reflexivity].
  - rewrite count_digits_while_nonpos by lia. apply IH.
Qed.

End DigitCounter.

(** ** The validity predicate, over any provider *)

Section Validity.

Context {P : Provider}.



Lemma mp_only_ret {A} (a : A) : mp_only (ret a).
Proof. intros [c l]. reflexivity. Qed.

Lemma mp_only_raise {A} e : mp_only (@raise A e).
Proof. intros [c l]. reflexivity. Qed.

Lemma mp_only_of_fuelled {A} (o : option A) : mp_only (of_fuelled o).
Proof. intros [c l]. destruct o; reflexivity. Qed.

Lemma mp_only_get_mp : mp_only get_mp.
Proof. intros [c l]. reflexivity. Qed.

Lemma mp_only_bind {A B} (m : M A) (k : A -> M B) :
  mp_only m -> (forall a, mp_only (k a)) -> mp_only (bind m k).
Proof.
  intros Hm Hk w. unfold bind.
  rewrite (Hm w).
  destruct (m (World (mp w) [])) as [[a|e|] w0]; cbn [fst snd mp];
    try reflexivity.
  rewrite (Hk a (World (mp w0) (printed w))). cbn [mp printed].
  rewrite (Hk a w0). cbn [fst snd mp]. reflexivity.
Qed.

Lemma mp_only_for_each {A B} (body : A -> B -> M A) (l : list B) :
  (forall acc x, mp_only (body acc x)) ->
  forall acc, mp_only (for_each l body acc).
Proof.
  intros Hbody. induction l as [|x l IH]; intros acc; cbn [for_each].
  - apply mp_only_ret.
  - apply mp_only_bind; [apply Hbody|exact IH].
Qed.

Lemma mp_only_extradps {A} (body : M A) n :
  mp_only body -> mp_only (extradps n body).
Proof.
  intros Hbody w. unfold extradps. cbn [mp printed].
  rewrite (Hbody (World _ (printed w))). cbn [mp printed].
  destruct (body (World _ [])) as [r w']. reflexivity.
Qed.

Lemma extradps_mp {A} (body : M A) n w :
  mp (snd (extradps n body w)) = set_prec (prec (mp w)).
Proof.
  unfold extradps. destruct (body _) as [r w']. reflexivity.
Qed.

Lemma mp_only_cf_step curr item : mp_only (cf_step curr item).
Proof.
  unfold cf_step. apply mp_only_bind; [apply mp_only_get_mp|].
  intros c. destruct (mpf_rdiv_int _ _ _);
    [apply mp_only_ret|apply mp_only_raise].
Qed.

Lemma mp_only_cf_to_real S precision : mp_only (cf_to_real S precision).
Proof.
  unfold cf_to_real. apply mp_only_extradps, mp_only_for_each.
  exact mp_only_cf_step.
Qed.

Lemma mp_only_py_str v : mp_only (py_str v).
Proof.
  unfold py_str. apply mp_only_bind; [apply mp_only_get_mp|].
  intros c. apply mp_only_ret.
Qed.

Lemma mp_only_valid_trott S : mp_only (valid_trott S).
Proof.
  unfold valid_trott.
  apply mp_only_bind; [apply mp_only_of_fuelled|]. intros d.
  apply mp_only_extradps.
  apply mp_only_bind; [apply mp_only_cf_to_real|]. intros v.
  apply mp_only_bind; [apply mp_only_py_str|]. intros s.
  apply mp_only_ret.
Qed.

Lemma valid_trott_frame S w :
  valid_trott S w
  = (fst (valid_trott S (World (mp w) [])),
     World (set_prec (prec (mp w))) (printed w)).
Proof.
  rewrite (mp_only_valid_trott S w). f_equal. f_equal.
  unfold valid_trott.
  destruct (count_digits_total S) as [d Hd]. rewrite Hd.
  unfold bind at 1. cbn [of_fuelled].
  rewrite extradps_mp. reflexivity.
Qed.


Lemma valid_trott_run S w :
  ctx_ok (mp w) -> valid_trott S w = (verdict (mp w) S, w).
Proof.
  intros Hok. rewrite valid_trott_frame. unfold verdict.
  rewrite Hok. destruct w; reflexivity.
Qed.

(** No fuelled loop of the predicate runs dry. *)
Lemma for_each_no_timeout {A B} (body : A -> B -> M A) (l : list B) :
  (forall acc x w, fst (body acc x w) <> OutOfFuel) ->
  forall acc w, fst (for_each l body acc w) <> OutOfFuel.
Proof.
  intros Hbody. induction l as [|x l IH]; intros acc w; [discriminate|].
  cbn [for_each]. unfold bind.
  specialize (Hbody acc x w).
  destruct (body acc x w) as [[a|e|] w']; cbn [fst] in *;
    [apply IH|discriminate|congruence].
Qed.

Lemma cf_to_real_no_timeout S precision w :
  fst (cf_to_real S precision w) <> OutOfFuel.
Proof.
  unfold cf_to_real, extradps.
  match goal with
  | |- context [for_each ?l ?b ?a ?w0] =>
      pose proof (for_each_no_timeout b l) as H; specialize (H ltac:(
        intros acc x w1; unfold cf_step, bind, get_mp;
        destruct (mpf_rdiv_int _ _ _); discriminate) a w0);
      destruct (for_each l b a w0) as [r w2]
  end.
  exact H.
Qed.

Lemma valid_trott_no_timeout S w : fst (valid_trott S w) <> OutOfFuel.
Proof.
  unfold valid_trott.
  destruct (count_digits_total S) as [d Hd]. rewrite Hd.
  unfold bind at 1. cbn [of_fuelled].
  unfold extradps.
  match goal with
  | |- context [bind ?m ?k ?w0] =>
      unfold bind; pose proof (cf_to_real_no_timeout S (d + 2) w0) as H;
      destruct (cf_to_real S (d + 2) w0) as [[v|e|] w2]
  end; cbn [fst] in *; try discriminate; try congruence.
Qed.

(** The state the two functions leave: the lines as they were, the
    context as the exit of the [with] block assigns it. *)
Lemma cf_to_real_world S precision w :
  snd (cf_to_real S precision w) = World (set_prec (prec (mp w))) (printed w).
Proof.
  rewrite (mp_only_cf_to_real S precision w). cbn [snd]. f_equal.
  unfold cf_to_real. rewrite extradps_mp. reflexivity.
Qed.

Lemma valid_trott_world S w :
  snd (valid_trott S w) = World (set_prec (prec (mp w))) (printed w).
Proof. rewrite valid_trott_frame. reflexivity. Qed.

(** After a first division the running value is an [mpf]. *)
Lemma cf_loop_mpf l :
  l <> [] ->
  forall v w r w',
    for_each l cf_step v w = (Done r, w') -> exists x, r = PyMpf x.
Proof.
  induction l as [|item l IH]; [congruence|]. intros _ v w r w'.
  cbn [for_each]. unfold bind at 1. unfold cf_step at 1, bind, get_mp.
  destruct (mpf_rdiv_int _ _ _) as [q|]; cbn [ret raise]; [|discriminate].
  destruct l as [|item' l].
  - cbn [for_each ret]. intros [= <- _]. exists q. reflexivity.
  - apply IH. discriminate.
Qed.

Lemma cf_to_real_mpf S precision w v :
  S <> [] ->
  fst (cf_to_real S precision w) = Done v -> exists x, v = PyMpf x.
Proof.
  intros Hne. unfold cf_to_real, extradps.
  destruct (for_each (rev S) cf_step (PyInt 0) _) as [r w'] eqn:E.
  cbn [fst]. intros ->.
  apply (cf_loop_mpf (rev S)) in E; [exact E|].
  intros Hr. apply Hne. rewrite <- (rev_involutive S), Hr. reflexivity.
Qed.

End Validity.

(** ** The search, over any provider *)

Section Search.

Context {P : Provider}.



Lemma closed_above_nil n : closed_above n [].
Proof. intros [|? ?] v l2 p E; discriminate E. Qed.

Lemma closed_above_app n A B :
  closed_above n A -> closed_above n B -> closed_above n (A ++ B).
Proof.
  intros HA HB l1 v l2 p E Hp Hlen.
  apply app_eq_app in E. destruct E as (l & [[EA EB]|[El1 EB]]).
  - destruct l as [|u l].
    + cbn in EB. subst B. rewrite app_nil_r in EA. subst l1.
      destruct (HB [] v l2 p eq_refl Hp Hlen).
    + injection EB as -> ->.
      exact (HA l1 u l p EA Hp Hlen).
  - subst l1. apply in_or_app. right.
    exact (HB l v l2 p EB Hp Hlen).
Qed.

Lemma is_prefix_same_length p q v :
  is_prefix p v -> is_prefix q v -> List.length p = List.length q -> p = q.
Proof.
  intros [r1 E1] [r2 E2] Hlen. subst v.
  revert q Hlen E2. induction p as [|x p IH]; intros [|y q] Hlen E2;
    try discriminate; [reflexivity|].
  cbn in E2. injection E2 as -> E2. f_equal.
  apply IH; [now injection Hlen|exact E2].
Qed.

Lemma closed_above_block n v new :
  List.length v = S n ->
  (forall u, In u new -> exists ext, u = v ++ ext) ->
  closed_above (List.length v) new ->
  closed_above n (v :: new).
Proof.
  intros Hv Hext Hnew l1 u l2 p E Hp Hlen.
  destruct l1 as [|v' l1]; cbn in E; injection E as <- E.
  - lia.
  - subst new.
    destruct (Hext u) as [ext Eu]; [apply in_or_app; right; left; reflexivity|].
    destruct (Nat.le_gt_cases (List.length p) (List.length v)) as [Hle|Hgt].
    + left.
      apply (is_prefix_same_length v p u); [exists ext; exact Eu|exact Hp|lia].
    + right. apply (Hnew l1 u l2 p eq_refl Hp). lia.
Qed.


Lemma reported_ok_nil c cur budget max_size :
  reported_ok c cur budget max_size [].
Proof. split; [intros v []|apply closed_above_nil]. Qed.

Lemma reported_ok_app c cur budget max_size A B :
  reported_ok c cur budget max_size A ->
  reported_ok c cur budget max_size B ->
  reported_ok c cur budget max_size (A ++ B).
Proof.
  intros [HA1 HA2] [HB1 HB2]. split.
  - intros v Hin. apply in_app_or in Hin. destruct Hin; auto.
  - apply closed_above_app; assumption.
Qed.

Lemma reported_ok_block c cur budget max_size a new :
  1 <= a < max_size -> 1 <= budget ->
  verdict c (cur ++ [a]) = Done true ->
  reported_ok c (cur ++ [a]) (budget - 1) max_size new ->
  reported_ok c cur budget max_size ((cur ++ [a]) :: new).
Proof.
  intros Ha Hb Hv [Hnew1 Hnew2]. split.
  - intros v [<-|Hin].
    + exists [a].
      split; [reflexivity|]. split; [discriminate|].
      split; [cbn; lia|].
      split; [|exact Hv]. constructor; [exact Ha|constructor].
    + destruct (Hnew1 v Hin) as (ext & -> & Hne & Hlen & Hall & Hval).
      exists (a :: ext). rewrite <- app_assoc in Hval |- *.
      split; [reflexivity|]. split; [discriminate|].
      split; [cbn [List.length]; lia|].
      split; [|exact Hval]. constructor; assumption.
  - apply closed_above_block.
    + rewrite length_app. cbn. lia.
    + intros u Hin. destruct (Hnew1 u Hin) as (ext & -> & _). eauto.
    + exact Hnew2.
Qed.

(** The first loop keeps the context and the printed lines, and returns
    the valid one-term extensions, in the order tried. *)
Lemma collect_valid_run cur l :
  forall acc w,
    ctx_ok (mp w) ->
    exists r,
      for_each l (collect_valid cur) acc w = (r, w) /\
      r <> OutOfFuel /\
      forall valid,
        r = Done valid ->
        exists extra,
          valid = acc ++ extra /\
          Forall (fun v => exists a, In a l /\ v = cur ++ [a] /\
                                     verdict (mp w) v = Done true) extra.
Proof.
  induction l as [|a l IH]; intros acc w Hok; cbn [for_each].
  - exists (Done acc). split; [reflexivity|]. split; [discriminate|].
    intros valid [= <-]. exists []. rewrite app_nil_r. split; constructor.
  - unfold bind at 1. unfold collect_valid at 1. unfold bind at 1.
    rewrite (valid_trott_run _ w Hok).
    pose proof (valid_trott_no_timeout (cur ++ [a]) (World (mp w) [])) as Hnt.
    fold (verdict (mp w) (cur ++ [a])) in Hnt.
    destruct (verdict (mp w) (cur ++ [a])) as [b|e|] eqn:Hv; cbn [ret].
    + destruct (IH (if b then acc ++ [cur ++ [a]] else acc) w Hok)
        as (r & Hrun & Hr & Hspec).
      exists r. split; [exact Hrun|]. split; [exact Hr|].
      intros valid Hd. destruct (Hspec valid Hd) as (extra & -> & Hall).
      assert (Hall' : Forall (fun v => exists a0, In a0 (a :: l) /\
                        v = cur ++ [a0] /\ verdict (mp w) v = Done true) extra).
      { eapply Forall_impl; [|exact Hall].
        intros v (a0 & Hin & E & Hval). exists a0. split; [right|]; auto. }
      destruct b.
      * exists ((cur ++ [a]) :: extra). rewrite <- app_assoc.
        split; [reflexivity|]. constructor; [|exact Hall'].
        exists a. split; [left; reflexivity|]. split; [reflexivity|exact Hv].
      * exists extra. split; [reflexivity|exact Hall'].
    + exists (Raised e). split; [reflexivity|]. split; discriminate.
    + congruence.
Qed.

Lemma in_range a lo hi : In a (Py.range lo hi) -> lo <= a < hi.
Proof.
  unfold Py.range. rewrite in_map_iff. intros (i & <- & Hin).
  apply in_seq in Hin. lia.
Qed.

Lemma guarded_loop {A} (valid : list A) (body : unit -> A -> M unit) :
  match valid with
  | [] => ret tt
  | _ => for_each valid body tt
  end = for_each valid body tt.
Proof. destruct valid; reflexivity. Qed.

Lemma world_eta w : World (mp w) (printed w) = w.
Proof. destruct w; reflexivity. Qed.

(** The second loop: print each survivor and search below it. *)
Lemma report_loop (rec : list Z -> M unit) c cur budget max_size :
  (forall v w, mp w = c ->
     exists r new,
       rec v w = (r, World c (printed w ++ new)) /\
       reported_ok c v (budget - 1) max_size new) ->
  1 <= budget ->
  forall vs w,
    mp w = c ->
    Forall (fun v => exists a, 1 <= a < max_size /\ v = cur ++ [a] /\
                               verdict c v = Done true) vs ->
    exists r new,
      for_each vs (fun _ v => print v ;; rec v) tt w
      = (r, World c (printed w ++ new)) /\
      reported_ok c cur budget max_size new.
Proof.
  intros Hrec Hbudget. induction vs as [|v vs IH]; intros w Hc Hall.
  - exists (Done tt), []. split; [|apply reported_ok_nil].
    cbn. rewrite app_nil_r, <- Hc, world_eta. reflexivity.
  - inversion Hall as [|? ? (a & Ha & -> & Hv) Hall']; subst.
    cbn [for_each]. unfold bind at 1 2. unfold print at 1.
    destruct (Hrec (cur ++ [a]) (World (mp w) (printed w ++ [cur ++ [a]]))
                eq_refl) as (r1 & new1 & Hrun1 & Hok1).
    rewrite Hrun1. cbn [printed].
    assert (Hblock : reported_ok (mp w) cur budget max_size
                       ((cur ++ [a]) :: new1))
      by (apply reported_ok_block; assumption).
    destruct r1 as [[]|e|].
    + destruct (IH (World (mp w) ((printed w ++ [cur ++ [a]]) ++ new1))
                  eq_refl Hall') as (r & new2 & Hrun2 & Hok2).
      exists r, (((cur ++ [a]) :: new1) ++ new2).
      split; [|apply reported_ok_app; assumption].
      rewrite Hrun2. cbn [printed].
      rewrite <- !app_assoc. reflexivity.
    + exists (Raised e), ((cur ++ [a]) :: new1). split; [|exact Hblock].
      rewrite <- !app_assoc. reflexivity.
    + exists OutOfFuel, ((cur ++ [a]) :: new1). split; [|exact Hblock].
      rewrite <- !app_assoc. reflexivity.
Qed.

(** The invariant of the search: whatever the outcome, the context is
    kept and the lines added are well-formed extensions of [cur]. *)
Lemma trott_backtracking_run max_items max_size fuel :
  forall cur count w,
    ctx_ok (mp w) ->
    exists r new,
      trott_backtracking fuel cur count max_items max_size w
      = (r, World (mp w) (printed w ++ new)) /\
      reported_ok (mp w) cur (max_items - count) max_size new.
Proof.
  induction fuel as [|fuel IH]; intros cur count w Hok;
    cbn [trott_backtracking];
    destruct (Z.ltb_spec count max_items) as [Hlt|Hge].
  - exists OutOfFuel, []. split; [|apply reported_ok_nil].
    rewrite app_nil_r, world_eta. reflexivity.
  - exists (Done tt), []. split; [|apply reported_ok_nil].
    cbn. rewrite app_nil_r, world_eta. reflexivity.
  - unfold bind at 1.
    destruct (collect_valid_run cur (Py.range 1 max_size) [] w Hok)
      as (r1 & Hrun1 & _ & Hspec).
    rewrite Hrun1.
    destruct r1 as [valid|e|].
    + rewrite guarded_loop.
      destruct (Hspec valid eq_refl) as (extra & -> & Hall).
      cbn [app].
      apply (report_loop _ (mp w) cur (max_items - count) max_size).
      * intros v w' Hc.
        destruct (IH v (count + 1) w') as (r & new & Hrun & Hnew).
        { rewrite Hc. exact Hok. }
        exists r, new. rewrite Hrun. rewrite Hc in Hnew |- *.
        replace (max_items - count - 1) with (max_items - (count + 1)) by lia.
        split; [reflexivity|exact Hnew].
      * lia.
      * reflexivity.
      * eapply Forall_impl; [|exact Hall].
        intros v (a & Hin & E & Hv). exists a.
        split; [exact (in_range _ _ _ Hin)|]. split; assumption.
    + exists (Raised e), []. split; [|apply reported_ok_nil].
      rewrite app_nil_r, world_eta. reflexivity.
    + exists OutOfFuel, []. split; [|apply reported_ok_nil].
      rewrite app_nil_r, world_eta. reflexivity.
  - exists (Done tt), []. split; [|apply reported_ok_nil].
    cbn. rewrite app_nil_r, world_eta. reflexivity.
Qed.

(** *** The shape of the printed lines, in any context *)

Lemma shape_ok_nil cur budget max_size : shape_ok cur budget max_size [].
Proof. intros v []. Qed.

Lemma shape_ok_app cur budget max_size A B :
  shape_ok cur budget max_size A ->
  shape_ok cur budget max_size B ->
  shape_ok cur budget max_size (A ++ B).
Proof.
  intros HA HB v Hin. apply in_app_or in Hin. destruct Hin; auto.
Qed.

Lemma shape_ok_block cur budget max_size a new :
  1 <= a < max_size -> 1 <= budget ->
  shape_ok (cur ++ [a]) (budget - 1) max_size new ->
  shape_ok cur budget max_size ((cur ++ [a]) :: new).
Proof.
  intros Ha Hb Hnew v [<-|Hin].
  - exists [a].
    split; [reflexivity|]. split; [discriminate|].
    split; [cbn; lia|]. constructor; [exact Ha|constructor].
  - destruct (Hnew v Hin) as (ext & -> & Hne & Hlen & Hall).
    exists (a :: ext). rewrite <- app_assoc.
    split; [reflexivity|]. split; [discriminate|].
    split; [cbn [List.length]; lia|]. constructor; assumption.
Qed.

Lemma collect_valid_shape cur l :
  forall acc w,
    exists r c',
      for_each l (collect_valid cur) acc w = (r, World c' (printed w)) /\
      forall valid,
        r = Done valid ->
        exists extra,
          valid = acc ++ extra /\
          Forall (fun v => exists a, In a l /\ v = cur ++ [a]) extra.
Proof.
  induction l as [|a l IH]; intros acc w; cbn [for_each].
  - exists (Done acc), (mp w). rewrite world_eta.
    split; [reflexivity|].
    intros valid [= <-]. exists []. rewrite app_nil_r. split; constructor.
  - unfold bind at 1. unfold collect_valid at 1. unfold bind at 1.
    rewrite valid_trott_frame.
    destruct (fst (valid_trott (cur ++ [a]) (World (mp w) []))) as [b|e|];
      cbn [ret].
    + destruct (IH (if b then acc ++ [cur ++ [a]] else acc)
                  (World (set_prec (prec (mp w))) (printed w)))
        as (r & c' & Hrun & Hspec).
      exists r, c'. split; [exact Hrun|].
      intros valid Hd. destruct (Hspec valid Hd) as (extra & -> & Hall).
      assert (Hall' : Forall (fun v => exists a0, In a0 (a :: l) /\
                                                  v = cur ++ [a0]) extra).
      { eapply Forall_impl; [|exact Hall].
        intros v (a0 & Hin & E). exists a0. split; [right|]; auto. }
      destruct b.
      * exists ((cur ++ [a]) :: extra). rewrite <- app_assoc.
        split; [reflexivity|]. constructor; [|exact Hall'].
        exists a. split; [left|]; reflexivity.
      * exists extra. split; [reflexivity|exact Hall'].
    + exists (Raised e), (set_prec (prec (mp w))).
      split; [reflexivity|discriminate].
    + exists OutOfFuel, (set_prec (prec (mp w))).
      split; [reflexivity|discriminate].
Qed.

Lemma report_loop_shape (rec : list Z -> M unit) cur budget max_size :
  (forall v w,
     exists r c' new,
       rec v w = (r, World c' (printed w ++ new)) /\
       shape_ok v (budget - 1) max_size new) ->
  1 <= budget ->
  forall vs w,
    Forall (fun v => exists a, 1 <= a < max_size /\ v = cur ++ [a]) vs ->
    exists r c' new,
      for_each vs (fun _ v => print v ;; rec v) tt w
      = (r, World c' (printed w ++ new)) /\
      shape_ok cur budget max_size new.
Proof.
  intros Hrec Hbudget. induction vs as [|v vs IH]; intros w Hall.
  - exists (Done tt), (mp w), []. split; [|apply shape_ok_nil].
    cbn. rewrite app_nil_r, world_eta. reflexivity.
  - inversion Hall as [|? ? (a & Ha & ->) Hall']; subst.
    cbn [for_each]. unfold bind at 1 2. unfold print at 1.
    destruct (Hrec (cur ++ [a]) (World (mp w) (printed w ++ [cur ++ [a]])))
      as (r1 & c1 & new1 & Hrun1 & Hok1).
    rewrite Hrun1. cbn [printed].
    assert (Hblock : shape_ok cur budget max_size ((cur ++ [a]) :: new1))
      by (apply shape_ok_block; assumption).
    destruct r1 as [[]|e|].
    + destruct (IH (World c1 ((printed w ++ [cur ++ [a]]) ++ new1)) Hall')
        as (r & c' & new2 & Hrun2 & Hok2).
      exists r, c', (((cur ++ [a]) :: new1) ++ new2).
      split; [|apply shape_ok_app; assumption].
      rewrite Hrun2. cbn [printed].
      rewrite <- !app_assoc. reflexivity.
    + exists (Raised e), c1, ((cur ++ [a]) :: new1). split; [|exact Hblock].
      rewrite <- !app_assoc. reflexivity.
    + exists OutOfFuel, c1, ((cur ++ [a]) :: new1). split; [|exact Hblock].
      rewrite <- !app_assoc. reflexivity.
Qed.

Lemma trott_backtracking_shape max_items max_size fuel :
  forall cur count w,
    exists r c' new,
      trott_backtracking fuel cur count max_items max_size w
      = (r, World c' (printed w ++ new)) /\
      shape_ok cur (max_items - count) max_size new.
Proof.
  induction fuel as [|fuel IH]; intros cur count w;
    cbn [trott_backtracking];
    destruct (Z.ltb_spec count max_items) as [Hlt|Hge].
  - exists OutOfFuel, (mp w), []. split; [|apply shape_ok_nil].
    rewrite app_nil_r, world_eta. reflexivity.
  - exists (Done tt), (mp w), []. split; [|apply shape_ok_nil].
    cbn. rewrite app_nil_r, world_eta. reflexivity.
  - unfold bind at 1.
    destruct (collect_valid_shape cur (Py.range 1 max_size) [] w)
      as (r1 & c1 & Hrun1 & Hspec).
    rewrite Hrun1.
    destruct r1 as [valid|e|].
    + rewrite guarded_loop.
      destruct (Hspec valid eq_refl) as (extra & -> & Hall).
      cbn [app].
      destruct (report_loop_shape
                  (fun v => trott_backtracking fuel v (count + 1)
                              max_items max_size)
                  cur (max_items - count) max_size) with
        (vs := extra) (w := World c1 (printed w))
        as (r & c' & new & Hrun & Hnew).
      * intros v w'.
        destruct (IH v (count + 1) w') as (r & c' & new & Hrun & Hnew).
        exists r, c', new. rewrite Hrun.
        replace (max_items - count - 1) with (max_items - (count + 1)) by lia.
        split; [reflexivity|exact Hnew].
      * lia.
      * eapply Forall_impl; [|exact Hall].
        intros v (a & Hin & E). exists a.
        split; [exact (in_range _ _ _ Hin)|exact E].
      * exists r, c', new. split; [exact Hrun|exact Hnew].
    + exists (Raised e), c1, []. split; [|apply shape_ok_nil].
      rewrite app_nil_r. reflexivity.
    + exists OutOfFuel, c1, []. split; [|apply shape_ok_nil].
      rewrite app_nil_r. reflexivity.
  - exists (Done tt), (mp w), []. split; [|apply shape_ok_nil].
    cbn. rewrite app_nil_r, world_eta. reflexivity.
Qed.

(** *** Termination *)

Lemma for_each_ext {A B} (f g : A -> B -> M A) (l : list B) :
  (forall acc x w, f acc x w = g acc x w) ->
  forall acc w, for_each l f acc w = for_each l g acc w.
Proof.
  intros Hfg. induction l as [|x l IH]; intros acc w; [reflexivity|].
  cbn [for_each]. unfold bind. rewrite Hfg.
  destruct (g acc x w) as [[a|e|] w']; auto.
Qed.

Lemma collect_valid_no_timeout cur acc a w :
  fst (collect_valid cur acc a w) <> OutOfFuel.
Proof.
  unfold collect_valid, bind.
  pose proof (valid_trott_no_timeout (cur ++ [a]) w) as H.
  destruct (valid_trott (cur ++ [a]) w) as [[b|e|] w'];
    cbn [fst] in *; try discriminate; congruence.
Qed.

Lemma trott_backtracking_no_timeout max_items max_size fuel :
  forall cur count w,
    (Z.to_nat (max_items - count) <= fuel)%nat ->
    fst (trott_backtracking fuel cur count max_items max_size w) <> OutOfFuel.
Proof.
  induction fuel as [|fuel IH]; intros cur count w Hfuel;
    cbn [trott_backtracking];
    destruct (Z.ltb_spec count max_items) as [Hlt|Hge];
    try discriminate; try lia.
  unfold bind at 1.
  pose proof (for_each_no_timeout (collect_valid cur) (Py.range 1 max_size)
                (collect_valid_no_timeout cur) [] w) as Hc.
  destruct (for_each (Py.range 1 max_size) (collect_valid cur) [] w)
    as [[valid|e|] w1]; cbn [fst] in *; try discriminate; try congruence.
  rewrite guarded_loop.
  apply for_each_no_timeout. intros [] v w2.
  unfold bind, print.
  apply IH. lia.
Qed.

Lemma trott_backtracking_fuel max_items max_size fuel1 :
  forall fuel2 cur count w,
    (Z.to_nat (max_items - count) <= fuel1)%nat ->
    (Z.to_nat (max_items - count) <= fuel2)%nat ->
    trott_backtracking fuel1 cur count max_items max_size w
    = trott_backtracking fuel2 cur count max_items max_size w.
Proof.
  induction fuel1 as [|fuel1 IH]; intros [|fuel2] cur count w H1 H2;
    cbn [trott_backtracking];
    destruct (Z.ltb_spec count max_items) as [Hlt|Hge];
    try reflexivity; try lia.
  unfold bind at 1 3.
  destruct (for_each (Py.range 1 max_size) (collect_valid cur) [] w)
    as [[valid|e|] w1]; try reflexivity.
  rewrite !guarded_loop.
  apply for_each_ext. intros [] v w2. unfold bind, print.
  apply IH; lia.
Qed.

(** *** Propagation of an exception *)

Lemma collect_valid_done cur l :
  forall acc w valid w',
    ctx_ok (mp w) ->
    for_each l (collect_valid cur) acc w = (Done valid, w') ->
    forall a, In a l -> exists b, verdict (mp w) (cur ++ [a]) = Done b.
Proof.
  induction l as [|x l IH]; intros acc w valid w' Hok Hrun a Hin;
    [destruct Hin|].
  cbn [for_each] in Hrun. unfold bind at 1 in Hrun.
  unfold collect_valid at 1 in Hrun. unfold bind at 1 in Hrun.
  rewrite (valid_trott_run _ w Hok) in Hrun.
  destruct (verdict (mp w) (cur ++ [x])) as [b|e|] eqn:Hv;
    cbn [ret] in Hrun; try discriminate.
  destruct Hin as [<-|Hin]; [eauto|].
  exact (IH _ _ _ _ Hok Hrun a Hin).
Qed.

Lemma range_in a lo hi : lo <= a < hi -> In a (Py.range lo hi).
Proof.
  intros Ha. unfold Py.range. apply in_map_iff.
  exists (Z.to_nat (a - lo)). split; [lia|]. apply in_seq. lia.
Qed.

Lemma trott_backtracking_raises max_items max_size fuel cur count w a e :
  ctx_ok (mp w) ->
  count < max_items -> (0 < fuel)%nat ->
  1 <= a < max_size ->
  verdict (mp w) (cur ++ [a]) = Raised e ->
  trott_backtracking fuel cur count max_items max_size w = (Raised e, w).
Proof.
  intros Hok Hlt Hfuel Ha Hv.
  destruct fuel as [|fuel]; [lia|]. cbn [trott_backtracking].
  destruct (Z.ltb_spec count max_items) as [_|Hge]; [|lia].
  unfold bind at 1.
  destruct (collect_valid_run cur (Py.range 1 max_size) [] w Hok)
    as (r1 & Hrun1 & Hnt & _).
  rewrite Hrun1.
  destruct r1 as [valid|[]|]; [exfalso| |congruence].
  - destruct (collect_valid_done _ _ _ _ _ _ Hok Hrun1 a (range_in _ _ _ Ha))
      as [b Hb].
    congruence.
  - destruct e. reflexivity.
Qed.

End Search.

(** ** What the predicate compares *)

Section Comparison.

Context {P : Provider}.


Lemma valid_trott_rendered S d w :
  count_digits S = Some d ->
  fst (valid_trott S w)
  = match rendered S (d + 2) w with
    | Done s => Done (String.eqb (Py.slice_to (d + 2) s) (cf_to_trott_approx S))
    | Raised e => Raised e
    | OutOfFuel => OutOfFuel
    end.
Proof.
  intros Hd. unfold valid_trott, rendered. rewrite Hd.
  unfold bind at 1. cbn [of_fuelled]. unfold extradps. cbn [mp printed].
  unfold bind.
  destruct (cf_to_real S (d + 2) _) as [[v|e|] w1]; reflexivity.
Qed.

Lemma string_length_append s t :
  String.length (String.append s t) = (String.length s + String.length t)%nat.
Proof. induction s as [|c s IH]; cbn; [reflexivity|now rewrite IH]. Qed.

Lemma join_length l :
  Z.of_nat (String.length (Py.join l))
  = fold_right (fun s acc => Z.of_nat (String.length s) + acc) 0 l.
Proof.
  unfold Py.join. induction l as [|s l IH]; [reflexivity|].
  cbn [fold_right]. rewrite <- IH.
  destruct l as [|s' l]; cbn [String.concat].
  - cbn. lia.
  - rewrite !string_length_append. cbn [String.length]. lia.
Qed.

Lemma target_length S :
  Z.of_nat (String.length (cf_to_trott_approx S)) = digit_total S + 2.
Proof.
  unfold cf_to_trott_approx. rewrite string_length_append, Nat2Z.inj_add.
  rewrite join_length. unfold digit_total.
  replace (Z.of_nat (String.length "0.")) with 2 by reflexivity.
  enough (E : forall l,
             fold_right (fun s acc => Z.of_nat (String.length s) + acc) 0
               (map Py.str l)
             = fold_right
                 (fun t acc => Z.of_nat (String.length (Py.str t)) + acc) 0 l)
    by (rewrite E; lia).
  induction l as [|t l IH]; cbn; [reflexivity|now rewrite IH].
Qed.

(** The string the predicate slices: [str] is applied to the value the
    evaluator returns, after the evaluator's own block has assigned
    [mp.prec] back. *)
Lemma rendered_shown S precision w :
  let inside := World (set_dps (dps (mp w) + (precision + 1))) (printed w) in
  rendered S precision w
  = match fst (cf_to_real S precision inside) with
    | Done (PyInt n) => Done (Py.str n)
    | Done (PyMpf x) => Done (mpf_str (dps (set_prec (prec (mp inside)))) x)
    | Raised e => Raised e
    | OutOfFuel => OutOfFuel
    end.
Proof.
  intros inside. unfold rendered, bind. fold inside.
  pose proof (cf_to_real_world S precision inside) as Hw.
  destruct (cf_to_real S precision inside) as [r w1]. cbn [fst snd] in *.
  subst w1. destruct r as [[n|x]|e|]; reflexivity.
Qed.

End Comparison.

(** ** The evaluator in exact arithmetic *)

Section ExactEvaluator.

#[local] Existing Instance Exact.provider.


Lemma cf_update_compat a b t : (a == b)%Q -> (cf_update a t == cf_update b t)%Q.
Proof. intros E. unfold cf_update. rewrite E. reflexivity. Qed.

Lemma fold_cf_update_compat l :
  forall a b, (a == b)%Q ->
    (fold_left cf_update l a == fold_left cf_update l b)%Q.
Proof.
  induction l as [|t l IH]; intros a b E; cbn [fold_left]; [exact E|].
  apply IH, cf_update_compat, E.
Qed.

Lemma cf_update_pos a t : 0 < t -> (0 <= a)%Q -> (0 < cf_update a t)%Q.
Proof.
  intros Ht Ha. unfold cf_update.
  assert (0 < inject_Z t + a)%Q.
  { apply Qlt_le_trans with (inject_Z t + 0)%Q.
    - rewrite Qplus_0_r. change 0%Q with (inject_Z 0). rewrite <- Zlt_Qlt. exact Ht.
    - apply Qplus_le_r. exact Ha. }
  unfold Qdiv. rewrite Qmult_1_l. apply Qinv_lt_0_compat. assumption.
Qed.

Lemma exact_step curr item w :
  0 < item -> (0 <= Exact.to_Q curr)%Q ->
  exists q,
    cf_step curr item w = (Done (PyMpf q), w) /\
    (q == cf_update (Exact.to_Q curr) item)%Q.
Proof.
  intros Hitem Hcurr.
  pose proof (cf_update_pos _ _ Hitem Hcurr) as Hpos.
  unfold cf_step, bind, get_mp. cbn [mpf_rdiv_int Exact.provider].
  unfold Exact.rdiv_int.
  set (den := py_mpf _ _).
  assert (Eden : (den == inject_Z item + Exact.to_Q curr)%Q).
  { unfold den. destruct curr as [c|x]; cbn.
    - rewrite inject_Z_plus. reflexivity.
    - reflexivity. }
  destruct (Qeq_bool den 0) eqn:Ez.
  - exfalso. apply Qeq_bool_iff in Ez. rewrite Eden in Ez.
    unfold cf_update in Hpos. rewrite Ez in Hpos.
    revert Hpos. unfold Qdiv. rewrite Qmult_1_l. cbn. discriminate.
  - eexists. split; [reflexivity|].
    unfold cf_update. rewrite Eden. reflexivity.
Qed.

Lemma exact_loop l :
  forall curr w,
    Forall (fun t => 0 < t) l -> (0 <= Exact.to_Q curr)%Q ->
    exists v,
      for_each l cf_step curr w = (Done v, w) /\
      (Exact.to_Q v == fold_left cf_update l (Exact.to_Q curr))%Q /\
      (0 <= Exact.to_Q v)%Q.
Proof.
  induction l as [|t l IH]; intros curr w Hall Hcurr.
  - exists curr. split; [reflexivity|]. split; [reflexivity|exact Hcurr].
  - inversion Hall as [|? ? Ht Hl]; subst.
    destruct (exact_step curr t w Ht Hcurr) as (q & Hstep & Eq).
    assert (Hq : (0 <= Exact.to_Q (PyMpf q))%Q).
    { cbn. rewrite Eq. apply Qlt_le_weak, cf_update_pos; assumption. }
    destruct (IH (PyMpf q) w Hl Hq) as (v & Hrun & Ev & Hv).
    exists v. cbn [for_each]. unfold bind. rewrite Hstep.
    split; [exact Hrun|]. split; [|exact Hv].
    rewrite Ev. cbn [fold_left Exact.to_Q].
    apply fold_cf_update_compat, Eq.
Qed.

Lemma cf_value_fold l :
  (cf_value l == fold_left cf_update (rev l) 0)%Q.
Proof.
  rewrite <- fold_left_rev_right, rev_involutive.
  induction l as [|a l IH]; cbn [cf_value fold_right]; [reflexivity|].
  unfold cf_update at 1. rewrite IH. reflexivity.
Qed.

Lemma exact_cf_to_real S precision w :
  Forall (fun t => 0 < t) S ->
  exists v,
    fst (cf_to_real S precision w) = Done v /\
    (Exact.to_Q v == fold_left cf_update (rev S) 0)%Q.
Proof.
  intros Hall. unfold cf_to_real, extradps.
  match goal with
  | |- context [for_each ?l cf_step ?a ?w0] =>
      destruct (exact_loop l a w0) as (v & Hrun & Ev & _)
  end.
  - apply Forall_rev. exact Hall.
  - cbn. discriminate.
  - rewrite Hrun. exists v. split; [reflexivity|exact Ev].
Qed.

End ExactEvaluator.

(** ** The evaluator never divides by zero

    The argument only needs three facts about the provider, so it is
    made once, over any provider that has them. *)

Section BoundedLoop.

Context {P : Provider}.
Variables (good_prec : Z -> Prop) (at_least_one unit_range : mpf -> Prop).

Hypothesis of_int_bound :
  forall p n, good_prec p -> 1 <= n -> at_least_one (mpf_of_int p n).
Hypothesis add_bound :
  forall p n x, good_prec p -> 1 <= n -> unit_range x ->
    at_least_one (mpf_pos p (mpf_add_int p n x)).
Hypothesis rdiv_bound :
  forall p x, good_prec p -> at_least_one x ->
    exists q, mpf_rdiv_int p 1 x = Some q /\ unit_range q.


Lemma denominator_bound p item curr :
  good_prec p -> 1 <= item -> curr_ok unit_range curr ->
  at_least_one (py_mpf p (py_add p item curr)).
Proof.
  intros Hp Hitem Hcurr. destruct curr as [c|x]; cbn in *.
  - subst c. apply of_int_bound; [exact Hp|lia].
  - apply add_bound; assumption.
Qed.

Lemma bounded_step curr item w :
  good_prec (prec (mp w)) -> 1 <= item -> curr_ok unit_range curr ->
  exists q, cf_step curr item w = (Done (PyMpf q), w) /\ unit_range q.
Proof.
  intros Hp Hitem Hcurr. unfold cf_step, bind, get_mp.
  destruct (rdiv_bound _ _ Hp (denominator_bound _ _ _ Hp Hitem Hcurr))
    as (q & -> & Hq).
  exists q. split; [reflexivity|exact Hq].
Qed.

Lemma bounded_loop l :
  forall curr w,
    good_prec (prec (mp w)) -> Forall (fun t => 1 <= t) l -> curr_ok unit_range curr ->
    exists v,
      for_each l cf_step curr w = (Done v, w) /\ curr_ok unit_range v /\
      (l <> [] -> exists q, v = PyMpf q).
Proof.
  induction l as [|t l IH]; intros curr w Hp Hall Hcurr.
  - exists curr. split; [reflexivity|]. split; [exact Hcurr|]. congruence.
  - inversion Hall as [|? ? Ht Hl]; subst.
    destruct (bounded_step curr t w Hp Ht Hcurr) as (q & Hstep & Hq).
    destruct (IH (PyMpf q) w Hp Hl Hq) as (v & Hrun & Hv & Hne).
    exists v. cbn [for_each]. unfold bind. rewrite Hstep.
    split; [exact Hrun|]. split; [exact Hv|]. intros _.
    destruct l as [|t' l]; [|apply Hne; discriminate].
    cbn in Hrun. injection Hrun as <-. eauto.
Qed.

Lemma bounded_cf_to_real S precision w :
  let inside := World (set_dps (dps (mp w) + (precision + 1))) (printed w) in
  let p := prec (mp inside) in
  good_prec p -> Forall (fun t => 1 <= t) S ->
  (forall done t todo,
     rev S = done ++ t :: todo ->
     exists curr,
       for_each done cf_step (PyInt 0) inside = (Done curr, inside) /\
       curr_ok unit_range curr /\
       at_least_one (py_mpf p (py_add p t curr))) /\
  exists v,
    fst (cf_to_real S precision w) = Done v /\
    curr_ok unit_range v /\ (S <> [] -> exists q, v = PyMpf q).
Proof.
  intros inside p Hp Hall.
  assert (Hrev : Forall (fun t => 1 <= t) (rev S)) by (apply Forall_rev, Hall).
  split.
  - intros done t todo E. rewrite E in Hrev.
    apply Forall_app in Hrev. destruct Hrev as [Hdone Hrest].
    inversion Hrest as [|? ? Ht _]; subst.
    destruct (bounded_loop done (PyInt 0) inside Hp Hdone eq_refl)
      as (curr & Hrun & Hcurr & _).
    exists curr. split; [exact Hrun|]. split; [exact Hcurr|].
    apply denominator_bound; assumption.
  - destruct (bounded_loop (rev S) (PyInt 0) inside Hp Hrev eq_refl)
      as (v & Hrun & Hv & Hne).
    exists v. unfold cf_to_real, extradps. fold inside. rewrite Hrun.
    split; [reflexivity|]. split; [exact Hv|].
    intros HS. apply Hne. intros E. apply HS.
    rewrite <- (rev_involutive S), E. reflexivity.
Qed.

End BoundedLoop.

(** ** The [mpmath] provider has the three facts *)

Module MpmathFacts.

Import Mpmath.

Lemma bitcount_bounds m : 0 < m -> 2 ^ (bitcount m - 1) <= m < 2 ^ bitcount m.
Proof.
  intros Hm. unfold bitcount. destruct (Z.eqb_spec m 0); [lia|].
  replace (Z.log2 m + 1 - 1) with (Z.log2 m) by lia.
  replace (Z.log2 m + 1) with (Z.succ (Z.log2 m)) by lia.
  apply Z.log2_spec. exact Hm.
Qed.

Lemma bitcount_pos m : 0 < m -> 1 <= bitcount m.
Proof.
  intros Hm. unfold bitcount. destruct (Z.eqb_spec m 0); [lia|].
  pose proof (Z.log2_nonneg m). lia.
Qed.

Lemma bitcount_unique m b :
  0 < m -> 2 ^ (b - 1) <= m < 2 ^ b -> bitcount m = b.
Proof.
  intros Hm [Hlo Hhi]. unfold bitcount. destruct (Z.eqb_spec m 0); [lia|].
  assert (0 < b).
  { destruct (Z_lt_le_dec 0 b); [assumption|].
    rewrite (Z.pow_neg_r 2 (b - 1)) in Hlo by lia.
    destruct (Z.eq_dec b 0) as [->|]; [simpl in Hhi; lia|].
    rewrite Z.pow_neg_r in Hhi by lia. lia. }
  assert (Z.log2 m = b - 1); [|lia].
  apply Z.log2_unique; [lia|]. replace (Z.succ (b - 1)) with b by lia. lia.
Qed.

Lemma trailing_pos_nonneg p : 0 <= trailing_pos p.
Proof. induction p; cbn [trailing_pos]; lia. Qed.

Lemma trailing_pos_spec p :
  Zpos p = Z.shiftr (Zpos p) (trailing_pos p) * 2 ^ trailing_pos p.
Proof.
  induction p as [p IH|p IH|]; cbn [trailing_pos].
  - rewrite Z.shiftr_0_r. simpl (2 ^ 0). lia.
  - pose proof (trailing_pos_nonneg p) as Hn.
    rewrite Z.shiftr_div_pow2 in * by lia.
    rewrite Z.pow_add_r by lia.
    change (Z.pos p~0) with (2 * Z.pos p).
    replace (2 ^ trailing_pos p * 2 ^ 1) with (2 * 2 ^ trailing_pos p) by (simpl (2 ^ 1); lia).
    rewrite Z.div_mul_cancel_l by (try apply Z.pow_nonzero; lia).
    rewrite IH at 1. lia.
  - rewrite Z.shiftr_0_r. simpl (2 ^ 0). lia.
Qed.

Lemma trailing_spec m :
  0 < m ->
  0 <= trailing m /\ m = Z.shiftr m (trailing m) * 2 ^ trailing m
  /\ 0 < Z.shiftr m (trailing m).
Proof.
  intros Hm. destruct m as [|p|p]; try lia. cbn [trailing].
  pose proof (trailing_pos_nonneg p) as Hn.
  pose proof (trailing_pos_spec p) as Hs.
  split; [exact Hn|]. split; [exact Hs|].
  assert (0 < 2 ^ trailing_pos p) by (apply Z.pow_pos_nonneg; lia).
  nia.
Qed.

Lemma pow2_pos k : 0 <= k -> 0 < 2 ^ k.
Proof. intros; apply Z.pow_pos_nonneg; lia. Qed.

Lemma pow2_split a b : 0 <= a -> 0 <= b -> 2 ^ (a + b) = 2 ^ a * 2 ^ b.
Proof. intros; apply Z.pow_add_r; lia. Qed.

Lemma bitcount_strip m q t :
  0 < q -> 0 <= t -> m = q * 2 ^ t -> bitcount q = bitcount m - t.
Proof.
  intros Hq Ht E.
  assert (Hm : 0 < m) by (pose proof (pow2_pos t Ht); nia).
  destruct (bitcount_bounds m Hm) as [Hlo Hhi].
  pose proof (bitcount_pos m Hm) as Hb.
  pose proof (pow2_pos t Ht) as Hpt.
  assert (Hlt : t < bitcount m).
  { apply (Z.pow_lt_mono_r_iff 2); [lia|lia|]. nia. }
  apply bitcount_unique; [exact Hq|].
  replace (bitcount m) with ((bitcount m - t) + t) in Hhi by lia.
  replace (bitcount m - 1) with ((bitcount m - t - 1) + t) in Hlo by lia.
  rewrite pow2_split in Hlo, Hhi by lia.
  split; nia.
Qed.

Lemma trailing_pow2 k : 0 <= k -> trailing (2 ^ k) = k.
Proof.
  intros Hk. pattern k. apply natlike_ind; [reflexivity| |exact Hk].
  intros x Hx IH. rewrite Z.pow_succ_r by lia.
  pose proof (pow2_pos x Hx) as Hp.
  destruct (2 ^ x) as [|p|p] eqn:E; try lia.
  change (2 * Z.pos p) with (Z.pos p~0). cbn [trailing trailing_pos] in *. lia.
Qed.

Lemma round_man_cases m n :
  0 <= m -> 0 < n ->
  round_man m n = m / 2 ^ n \/
  (round_man m n = m / 2 ^ n + 1 /\ (m / 2 ^ n) * 2 ^ n < m).
Proof.
  intros Hm Hn. unfold round_man.
  assert (Eq : Z.shiftr (Z.shiftr m (n - 1)) 1 = m / 2 ^ n).
  { rewrite Z.shiftr_shiftr by lia. replace (n - 1 + 1) with n by lia.
    apply Z.shiftr_div_pow2. lia. }
  rewrite Eq.
  destruct (Z.testbit (Z.shiftr m (n - 1)) 0) eqn:Hbit; cbn [andb]; [|left; reflexivity].
  match goal with |- context [if ?c then _ else _] => destruct c end;
    [right|left; reflexivity].
  split; [reflexivity|].
  rewrite Z.bit0_odd in Hbit.
  assert (E1 : Z.shiftr m (n - 1) = m / 2 ^ (n - 1))
    by (apply Z.shiftr_div_pow2; lia).
  rewrite E1 in Hbit.
  pose proof (pow2_pos (n - 1) ltac:(lia)) as Hp.
  assert (E2 : m / 2 ^ n = m / 2 ^ (n - 1) / 2).
  { rewrite Z.div_div by lia. f_equal.
    replace n with ((n - 1) + 1) at 1 by lia.
    rewrite pow2_split by lia. reflexivity. }
  set (t := m / 2 ^ (n - 1)) in *.
  assert (Ht : t = 2 * (m / 2 ^ n) + 1).
  { rewrite E2. rewrite (Z.div_mod t 2) at 1 by lia.
    rewrite Zmod_odd, Hbit. reflexivity. }
  assert (Hle : t * 2 ^ (n - 1) <= m).
  { unfold t. pose proof (Z.mul_div_le m (2 ^ (n - 1)) Hp). lia. }
  replace n with ((n - 1) + 1) at 2 by lia.
  rewrite pow2_split by lia. change (2 ^ 1) with 2. nia.
Qed.


Lemma ge1_strip m q e t :
  0 < q -> 0 <= t -> m = q * 2 ^ t -> ge1 m e -> ge1 q (e + t).
Proof.
  intros Hq Ht E. unfold ge1.
  pose proof (pow2_pos t Ht) as Hpt.
  destruct (Z.geb_spec e 0), (Z.geb_spec (e + t) 0); try lia.
  intros Hge.
  replace (- e) with ((- (e + t)) + t) in Hge by lia.
  rewrite pow2_split in Hge by lia.
  pose proof (pow2_pos (- (e + t)) ltac:(lia)). nia.
Qed.

Lemma le1_strip m q e t :
  0 < q -> 0 <= t -> m = q * 2 ^ t -> le1 m e -> le1 q (e + t).
Proof.
  intros Hq Ht E [He Hm].
  pose proof (pow2_pos t Ht) as Hpt.
  assert (Hte : t <= - e).
  { apply (Z.pow_le_mono_r_iff 2); [lia|lia|]. nia. }
  split; [lia|].
  replace (- e) with ((- (e + t)) + t) in Hm by lia.
  rewrite pow2_split in Hm by lia.
  pose proof (pow2_pos (- (e + t)) ltac:(lia)). nia.
Qed.

Lemma strip_bc m1 bc1 :
  0 < m1 ->
  bitcount m1 = bc1 \/ (exists k, 0 <= k /\ m1 = 2 ^ k) ->
  (if Z.shiftr m1 (trailing m1) =? 1 then 1 else bc1 - trailing m1)
  = bitcount (Z.shiftr m1 (trailing m1)).
Proof.
  intros Hm Hbc.
  destruct (trailing_spec m1 Hm) as (Ht & Es & Hq).
  destruct (Z.eqb_spec (Z.shiftr m1 (trailing m1)) 1) as [E1|N1].
  - rewrite E1. reflexivity.
  - destruct Hbc as [<-|(k & Hk & Ek)].
    + symmetry. apply (bitcount_strip m1); assumption.
    + exfalso. apply N1. rewrite Ek, trailing_pow2 by exact Hk.
      rewrite Z.shiftr_div_pow2 by exact Hk.
      apply Z.div_same. pose proof (pow2_pos k Hk). lia.
Qed.

Lemma round_stage m e prec :
  0 < m -> 1 <= prec -> 0 < bitcount m - prec ->
  let n := bitcount m - prec in
  let m1 := round_man m n in
  0 < m1 /\
  (bitcount m1 = prec \/ exists k, 0 <= k /\ m1 = 2 ^ k) /\
  (ge1 m e -> ge1 m1 (e + n)) /\
  (le1 m e -> le1 m1 (e + n)).
Proof.
  intros Hm Hprec Hn n m1.
  destruct (bitcount_bounds m Hm) as [Hlo Hhi].
  pose proof (pow2_pos n ltac:(lia)) as Hpn.
  pose proof (pow2_pos (prec - 1) ltac:(lia)) as Hpp.
  assert (Eb1 : 2 ^ (bitcount m - 1) = 2 ^ (prec - 1) * 2 ^ n).
  { rewrite <- pow2_split by lia. f_equal. unfold n. lia. }
  assert (Eb : 2 ^ bitcount m = 2 ^ prec * 2 ^ n).
  { rewrite <- pow2_split by lia. f_equal. unfold n. lia. }
  assert (Ep : 2 ^ prec = 2 * 2 ^ (prec - 1)).
  { replace prec with (Z.succ (prec - 1)) at 1 by lia.
    apply Z.pow_succ_r. lia. }
  set (q := m / 2 ^ n).
  assert (Hq1 : 2 ^ (prec - 1) <= q).
  { apply Z.div_le_lower_bound; lia. }
  assert (Hq2 : q < 2 ^ prec).
  { apply Z.div_lt_upper_bound; lia. }
  assert (Hqm : q * 2 ^ n <= m).
  { unfold q. pose proof (Z.mul_div_le m (2 ^ n) Hpn). lia. }
  assert (Hcases : m1 = q \/ (m1 = q + 1 /\ q * 2 ^ n < m)).
  { apply round_man_cases; lia. }
  assert (Hm1 : q <= m1 <= q + 1) by (destruct Hcases as [->|[-> _]]; lia).
  split; [lia|]. split; [|split].
  - destruct (Z.eq_dec m1 (2 ^ prec)) as [E|N].
    + right. exists prec. split; [lia|exact E].
    + left. apply bitcount_unique; lia.
  - unfold ge1.
    destruct (Z.geb_spec e 0), (Z.geb_spec (e + n) 0); try lia.
    intros Hge.
    assert (2 ^ (- (e + n)) <= q); [|lia].
    apply Z.div_le_lower_bound; [lia|].
    rewrite <- pow2_split by lia.
    replace (n + - (e + n)) with (- e) by lia. exact Hge.
  - intros [He Hle].
    assert (Hbe : bitcount m - 1 <= - e).
    { apply (Z.pow_le_mono_r_iff 2); lia. }
    assert (Hen : e + n <= 0) by (unfold n; lia).
    split; [exact Hen|].
    assert (EK : 2 ^ (- e) = 2 ^ (- (e + n)) * 2 ^ n).
    { rewrite <- pow2_split by lia. f_equal. lia. }
    pose proof (pow2_pos (- (e + n)) ltac:(lia)) as HK.
    destruct Hcases as [->|[-> Hlt]]; nia.
Qed.

Lemma normalize_spec sg m e prec :
  0 < m -> 1 <= prec ->
  let r := normalize sg m e (bitcount m) prec in
  sign r = sg /\ 0 < man r /\ bc r = bitcount (man r) /\
  (ge1 m e -> ge1 (man r) (exp r)) /\
  (le1 m e -> le1 (man r) (exp r)).
Proof.
  intros Hm Hprec. unfold normalize.
  destruct (Z.eqb_spec m 0); [lia|].
  destruct (Z.gtb_spec (bitcount m - prec) 0) as [Hn|Hn].
  - destruct (round_stage m e prec Hm Hprec ltac:(lia))
      as (Hm1 & Hbc1 & Hge & Hle).
    set (m1 := round_man m (bitcount m - prec)) in *.
    destruct (trailing_spec m1 Hm1) as (Ht & Es & Hq).
    cbn [sign man exp bc].
    split; [reflexivity|]. split; [exact Hq|].
    split; [apply strip_bc; assumption|].
    split; intros H.
    + apply (ge1_strip m1); auto.
    + apply (le1_strip m1); auto.
  - destruct (trailing_spec m Hm) as (Ht & Es & Hq).
    cbn [sign man exp bc].
    split; [reflexivity|]. split; [exact Hq|].
    split; [apply strip_bc; auto|].
    split; intros H.
    + apply (ge1_strip m); auto.
    + apply (le1_strip m); auto.
Qed.


Lemma normalize_ge_one m e prec :
  0 < m -> 1 <= prec -> ge1 m e -> ge_one (normalize 0 m e (bitcount m) prec).
Proof.
  intros Hm Hp Hge.
  destruct (normalize_spec 0 m e prec Hm Hp) as (Hs & Hman & Hbc & H1 & _).
  repeat split; auto.
Qed.

Lemma normalize_unit_pos m e prec :
  0 < m -> 1 <= prec -> le1 m e -> unit_pos (normalize 0 m e (bitcount m) prec).
Proof.
  intros Hm Hp Hle.
  destruct (normalize_spec 0 m e prec Hm Hp) as (Hs & Hman & Hbc & _ & H1).
  repeat split; auto. all: apply H1; exact Hle.
Qed.

Lemma from_int_ge_one n :
  1 <= n -> ge_one (from_int n) /\ 0 <= exp (from_int n).
Proof.
  intros Hn. unfold from_int, from_man_exp.
  rewrite Z.abs_eq by lia.
  destruct (Z.eqb_spec n 0); [lia|].
  destruct (Z.ltb_spec n 0); [lia|].
  destruct (trailing_spec n ltac:(lia)) as (Ht & Es & Hq).
  cbn [exp]. split; [|lia].
  split; [split; [reflexivity|split]|]; cbn [man exp bc sign].
  - exact Hq.
  - symmetry. apply (bitcount_strip n); assumption.
  - unfold ge1. destruct (Z.geb_spec (0 + trailing n) 0); lia.
Qed.

Lemma mpf_pos_ge_one x prec :
  1 <= prec -> ge_one x -> ge_one (mpf_pos x prec).
Proof.
  intros Hp [(Hs & Hm & Hbc) Hge]. unfold mpf_pos.
  rewrite Hs, Hbc. apply normalize_ge_one; assumption.
Qed.

Lemma mpf_add_ge_one x n prec :
  1 <= prec -> 1 <= n -> unit_pos x -> ge_one (mpf_add x (from_int n) prec).
Proof.
  intros Hp Hn [(Hs & Hm & Hbc) [He Hle]].
  destruct (from_int_ge_one n Hn) as [[(Hs' & Hm' & Hbc') Hge'] He'].
  set (y := from_int n) in *.
  unfold mpf_add.
  destruct (Z.eqb_spec (man x) 0); [lia|].
  destruct (Z.eqb_spec (man y) 0); [lia|]. cbn [negb andb].
  rewrite Hs, Hs'. cbn [Z.eqb].
  destruct (Z.gtb_spec (exp x - exp y) 0); [lia|].
  destruct (Z.ltb_spec (exp x - exp y) 0) as [Hoff|Hoff].
  - match goal with |- context [if ?c then _ else _] => destruct c end.
    + pose proof (pow2_pos (prec + 4) ltac:(lia)) as Hpp.
      rewrite Z.shiftl_mul_pow2 by lia.
      apply normalize_ge_one; [nia|exact Hp|].
      unfold ge1. destruct (Z.geb_spec (exp y - (prec + 4)) 0); [nia|].
      assert (2 ^ (- (exp y - (prec + 4))) <= 2 ^ (prec + 4))
        by (apply Z.pow_le_mono_r; lia).
      nia.
    + unfold add_aligned. cbn [Z.eqb].
      pose proof (pow2_pos (- (exp x - exp y)) ltac:(lia)) as Hpp.
      rewrite Z.shiftl_mul_pow2 by lia.
      apply normalize_ge_one; [nia|exact Hp|].
      unfold ge1. destruct (Z.geb_spec (exp x) 0); [nia|].
      assert (2 ^ (- exp x) <= 2 ^ (- (exp x - exp y)))
        by (apply Z.pow_le_mono_r; lia).
      nia.
  - unfold add_aligned. cbn [Z.eqb].
    apply normalize_ge_one; [lia|exact Hp|].
    unfold ge1. destruct (Z.geb_spec (exp y) 0); lia.
Qed.

Lemma mpf_rdiv_int_unit_pos x prec :
  1 <= prec -> ge_one x ->
  exists q, mpf_rdiv_int 1 x prec = Some q /\ unit_pos q.
Proof.
  intros Hp [(Hs & Hm & Hbc) Hge].
  unfold mpf_rdiv_int. cbn [Z.eqb orb Z.ltb Z.abs].
  destruct (Z.eqb_spec (man x) 0); [lia|]. cbn [Z.compare].
  eexists. split; [reflexivity|].
  rewrite Hs, Hbc. unfold div_man.
  destruct (bitcount_bounds _ Hm) as [Hlo Hhi].
  pose proof (bitcount_pos _ Hm) as Hb.
  set (extra := prec + bitcount (man x) + 4).
  rewrite Z.shiftl_mul_pow2, Z.mul_1_l by (unfold extra; lia).
  pose proof (pow2_pos extra ltac:(unfold extra; lia)) as Hpe.
  assert (Hbe : 2 ^ bitcount (man x) <= 2 ^ extra)
    by (apply Z.pow_le_mono_r; unfold extra; lia).
  pose proof (Z.div_mod (2 ^ extra) (man x) ltac:(lia)) as Hdm.
  pose proof (Z.mod_pos_bound (2 ^ extra) (man x) Hm) as Hrem.
  set (quot := 2 ^ extra / man x) in *.
  set (rem := 2 ^ extra mod man x) in *.
  assert (Hq : 0 < quot).
  { apply Z.div_str_pos. lia. }
  (* the position of 1 on the quotient's scale *)
  assert (Hex : 0 <= exp x + extra /\ quot * 1 <= 2 ^ (exp x + extra)
                /\ (rem <> 0 -> quot < 2 ^ (exp x + extra))).
  { unfold ge1 in Hge. destruct (Z.geb_spec (exp x) 0) as [He|He].
    - assert (2 ^ extra <= 2 ^ (exp x + extra))
        by (apply Z.pow_le_mono_r; lia).
      split; [lia|]. split; nia.
    - assert (Hlt : - exp x < bitcount (man x)).
      { apply (Z.pow_lt_mono_r_iff 2); lia. }
      assert (EK : 2 ^ extra = 2 ^ (exp x + extra) * 2 ^ (- exp x)).
      { rewrite <- pow2_split by (unfold extra; lia). f_equal. lia. }
      pose proof (pow2_pos (- exp x) ltac:(lia)).
      pose proof (pow2_pos (exp x + extra) ltac:(unfold extra; lia)).
      split; [unfold extra; lia|]. split; nia. }
  destruct Hex as (Hex0 & Hex1 & Hex2).
  destruct (Z.eqb_spec rem 0) as [Hr|Hr].
  - apply normalize_unit_pos; [exact Hq|exact Hp|].
    split; [lia|]. replace (- (- exp x - extra)) with (exp x + extra) by lia. lia.
  - rewrite Z.shiftl_mul_pow2 by lia. change (2 ^ 1) with 2.
    apply normalize_unit_pos; [lia|exact Hp|].
    split; [lia|].
    replace (- (- exp x - (extra + 1))) with (Z.succ (exp x + extra)) by lia.
    rewrite Z.pow_succ_r by lia. specialize (Hex2 Hr). lia.
Qed.

(** Bridge to rationals *)
Lemma value_pwf x :
  pwf x ->
  value x = if exp x >=? 0 then inject_Z (man x * 2 ^ exp x)
            else Qmake (man x) (Z.to_pos (2 ^ (- exp x))).
Proof. intros (Hs & _). unfold value, with_sign. rewrite Hs. reflexivity. Qed.

Lemma ge_one_value x : ge_one x -> (1 <= value x)%Q.
Proof.
  intros [Hw Hge]. rewrite (value_pwf x Hw). destruct Hw as (_ & Hm & _).
  unfold ge1 in Hge. destruct (Z.geb_spec (exp x) 0) as [He|He].
  - change 1%Q with (inject_Z 1). rewrite <- Zle_Qle.
    pose proof (pow2_pos (exp x) He). nia.
  - pose proof (pow2_pos (- exp x) ltac:(lia)) as Hp.
    unfold Qle. cbn [Qnum Qden]. rewrite Z2Pos.id by exact Hp. lia.
Qed.

Lemma unit_pos_value x : unit_pos x -> (0 < value x <= 1)%Q.
Proof.
  intros [Hw [He Hle]]. rewrite (value_pwf x Hw). destruct Hw as (_ & Hm & _).
  destruct (Z.geb_spec (exp x) 0) as [He'|He'].
  - assert (exp x = 0) as E by lia. rewrite E in *. cbn in Hle.
    change (2 ^ 0) with 1. rewrite Z.mul_1_r.
    split.
    + change 0%Q with (inject_Z 0). rewrite <- Zlt_Qlt. exact Hm.
    + change 1%Q with (inject_Z 1). rewrite <- Zle_Qle. exact Hle.
  - pose proof (pow2_pos (- exp x) ltac:(lia)) as Hp.
    split.
    + unfold Qlt. cbn [Qnum Qden]. lia.
    + unfold Qle. cbn [Qnum Qden]. rewrite Z2Pos.id by exact Hp. lia.
Qed.

End MpmathFacts.

Section MpmathEvaluator.

Lemma mpmath_cf_to_real S precision w :
  let inside :=
    World (@set_dps Mpmath.provider (dps (mp w) + (precision + 1))) (printed w) in
  let p := prec (mp inside) in
  Forall (fun t => 1 <= t) S ->
  (forall done t todo,
     rev S = done ++ t :: todo ->
     exists curr,
       @for_each (@pyval Mpmath.provider) Z done cf_step (PyInt 0) inside
       = (Done curr, inside) /\
       @curr_ok Mpmath.provider Mpmath.unit_pos curr /\
       Mpmath.ge_one (py_mpf p (py_add p t curr))) /\
  exists v,
    fst (@cf_to_real Mpmath.provider S precision w) = Done v /\
    @curr_ok Mpmath.provider Mpmath.unit_pos v /\
    (S <> [] -> exists q, v = PyMpf q).
Proof.
  intros inside p.
  apply (@bounded_cf_to_real Mpmath.provider
           (fun p => 1 <= p) Mpmath.ge_one Mpmath.unit_pos).
  - intros p0 n Hp Hn. cbn.
    apply MpmathFacts.mpf_pos_ge_one; [exact Hp|].
    apply MpmathFacts.from_int_ge_one. exact Hn.
  - intros p0 n x Hp Hn Hx. cbn.
    apply MpmathFacts.mpf_pos_ge_one; [exact Hp|].
    apply MpmathFacts.mpf_add_ge_one; assumption.
  - intros p0 x Hp Hx. cbn.
    apply MpmathFacts.mpf_rdiv_int_unit_pos; assumption.
  - unfold p, inside. cbn. unfold Mpmath.dps_to_prec. lia.
Qed.

Lemma mpmath_curr_value v :
  @curr_ok Mpmath.provider Mpmath.unit_pos v -> (0 <= Mpmath.to_Q v <= 1)%Q.
Proof.
  destruct v as [n|x]; cbn [curr_ok Mpmath.to_Q].
  - intros ->. split; discriminate.
  - intros Hx. destruct (MpmathFacts.unit_pos_value x Hx) as [H0 H1].
    split; [apply Qlt_le_weak, H0|exact H1].
Qed.

End MpmathEvaluator.

(** In exact arithmetic too the running value stays in [0, 1]. *)
Lemma exact_cf_to_real_bounds S precision w :
  Forall (fun t => 1 <= t) S ->
  exists v,
    fst (@cf_to_real Exact.provider S precision w) = Done v /\
    (0 <= Exact.to_Q v <= 1)%Q /\
    (S <> [] -> (0 < Exact.to_Q v)%Q).
Proof.
  intros Hall.
  destruct (@bounded_cf_to_real Exact.provider (fun _ => True)
              (fun x : Q => (1 <= x)%Q) (fun x : Q => (0 < x <= 1)%Q))
    with (S := S) (precision := precision) (w := w)
    as [_ (v & Hrun & Hv & Hne)].
  - intros p n _ Hn. cbn. change 1%Q with (inject_Z 1).
    rewrite <- Zle_Qle. exact Hn.
  - intros p n x _ Hn [Hx _]. cbn.
    apply Qle_trans with (inject_Z n + 0)%Q.
    + rewrite Qplus_0_r. change 1%Q with (inject_Z 1).
      rewrite <- Zle_Qle. exact Hn.
    + apply Qplus_le_r, Qlt_le_weak, Hx.
  - intros p x _ Hx. cbn. unfold Exact.rdiv_int.
    assert (Hpos : (0 < x)%Q) by (apply Qlt_le_trans with 1%Q; [reflexivity|exact Hx]).
    destruct (Qeq_bool x 0) eqn:Ez.
    + apply Qeq_bool_iff in Ez. rewrite Ez in Hpos. discriminate Hpos.
    + eexists. split; [reflexivity|].
      change (inject_Z 1) with 1%Q. unfold Qdiv. rewrite Qmult_1_l. split.
      * apply Qinv_lt_0_compat, Hpos.
      * apply Qle_shift_inv_r; [exact Hpos|]. rewrite Qmult_1_l. exact Hx.
  - exact I.
  - exact Hall.
  - exists v. split; [exact Hrun|].
    destruct v as [n|x]; cbn [curr_ok Exact.to_Q] in *.
    + subst n. split; [split; discriminate|].
      intros HS. destruct (Hne HS) as [q [=]].
    + destruct Hv as [H0 H1]. split; [split; [apply Qlt_le_weak|]; assumption|].
      intros _. exact H0.
Qed.

(** ** The recorded runs

    The notebook's own outputs, replayed on the [mpmath] provider. *)

Example search_three_levels_below_60 :
  @trott_backtracking Mpmath.provider 3 [] 0 3 60 Mpmath.start
  = (Done tt,
     World Mpmath.default_context [[3]; [3; 29]; [3; 29; 5]; [3; 29; 54]]).
Proof. vm_compute. reflexivity. Qed.

Example rendering_of_3_29_5_7 :
  @rendered Mpmath.provider [3; 29; 5; 7] 7 Mpmath.start
  = Done "0.3295703982439636249608".
Proof. vm_compute. reflexivity. Qed.

Example default_context_ok : @ctx_ok Mpmath.provider Mpmath.default_context.
Proof. vm_compute. reflexivity. Qed.

(** [str] drops trailing zeros, so the string of [1/10] is too short to
    carry the target ["0.10"]: the sequence [[10]] is turned down. *)
Example trailing_zero_is_not_rendered :
  @rendered Mpmath.provider [10] 4 Mpmath.start = Done "0.1" /\
  @verdict Mpmath.provider Mpmath.default_context [10] = Done false.
Proof. vm_compute. split; reflexivity. Qed.

(** * The claims *)

(** C7.  For a sequence of positive integers the digit counter returns
    the sum, over the terms, of the length of the term's decimal string;
    on [[100; 5; 7; 99]] it returns 7. *)
Theorem count_digits_sums_string_lengths (S : list Z) :
  Forall (fun t => 0 < t) S ->
  count_digits S
  = Some (fold_right (fun t acc => Z.of_nat (String.length (Py.str t)) + acc) 0 S)
  /\ count_digits [100; 5; 7; 99] = Some 7.
Proof.
  intros Hall. split; [|reflexivity].
  exact (count_digits_pos S Hall).
Qed.

Lemma count_digits_sums_string_lengths_witness :
  count_digits [100; 5; 7; 99]
  = Some (fold_right (fun t acc => Z.of_nat (String.length (Py.str t)) + acc)
            0 [100; 5; 7; 99])
  /\ count_digits [100; 5; 7; 99] = Some 7.
Proof.
  apply (count_digits_sums_string_lengths [100; 5; 7; 99]).
  repeat constructor.
Defined.

(** C2.  For a sequence [S] of positive integers with [d] digits in
    total, the predicate answers true exactly when the first [d + 2]
    characters of the string of the evaluator's value, computed at
    precision [d + 2], are ["0."] followed by the terms' decimal strings
    in order. *)
Theorem valid_trott_compares_first_characters
    (P : Provider) (S : list Z) (w : world) :
  Forall (fun t => 0 < t) S ->
  let d := digit_total S in
  fst (valid_trott S w) = Done true <->
  exists s,
    rendered S (d + 2) w = Done s /\
    Py.slice_to (d + 2) s
    = String.append "0." (String.concat "" (map Py.str S)).
Proof.
  intros Hall d.
  rewrite (valid_trott_rendered S d w (count_digits_pos S Hall)).
  fold d. split.
  - destruct (rendered S (d + 2) w) as [s|e|]; try discriminate.
    intros [= E]. exists s. split; [reflexivity|].
    apply String.eqb_eq. exact E.
  - intros (s & -> & E). f_equal. apply String.eqb_eq. exact E.
Qed.

Lemma valid_trott_compares_first_characters_witness :
  fst (@valid_trott Mpmath.provider [3; 29] Mpmath.start) = Done true <->
  exists s,
    @rendered Mpmath.provider [3; 29] (digit_total [3; 29] + 2) Mpmath.start
    = Done s /\
    Py.slice_to (digit_total [3; 29] + 2) s
    = String.append "0." (String.concat "" (map Py.str [3; 29])).
Proof.
  apply (valid_trott_compares_first_characters Mpmath.provider [3; 29]).
  repeat constructor.
Defined.

(** C4, amended.  For a sequence [S] of positive integers, the
    predicate answers true exactly when the evaluator returns an [mpf]
    and the target string is a prefix of the string [str] gives for it:
    the value computed at the guard precision, shown with the [mp.dps]
    digits in force once the evaluator's block is left.  Nothing beyond
    the target's length is compared, and no numeric equality is
    asked. *)
Theorem valid_trott_iff_target_is_prefix
    (P : Provider) (S : list Z) (w : world) :
  Forall (fun t => 0 < t) S ->
  let precision := digit_total S + 2 in
  let inside := World (set_dps (dps (mp w) + (precision + 1))) (printed w) in
  let shown := dps (set_prec (prec (mp inside))) in
  fst (valid_trott S w) = Done true <->
  exists x,
    fst (cf_to_real S precision inside) = Done (PyMpf x) /\
    String.prefix (cf_to_trott_approx S) (mpf_str shown x) = true.
Proof.
  intros Hall precision inside shown.
  rewrite (valid_trott_rendered S _ w (count_digits_pos S Hall)).
  assert (Hlen : Z.to_nat (digit_total S + 2)
                 = String.length (cf_to_trott_approx S))
    by (rewrite <- target_length; lia).
  assert (Hiff : forall s,
             String.eqb (Py.slice_to (digit_total S + 2) s)
               (cf_to_trott_approx S) = true
             <-> String.prefix (cf_to_trott_approx S) s = true).
  { intros s. unfold Py.slice_to. rewrite Hlen, String.eqb_eq.
    symmetry. apply String.prefix_correct. }
  rewrite rendered_shown. fold precision inside shown.
  destruct (fst (cf_to_real S precision inside)) as [[n|x]|e|] eqn:E.
  - destruct S as [|t S].
    + unfold cf_to_real, extradps in E. cbn in E. injection E as <-.
      split; [discriminate|intros (x & Hx & _); discriminate].
    + destruct (cf_to_real_mpf (t :: S) precision inside (PyInt n))
        as [x Hx]; [discriminate|exact E|discriminate].
  - split.
    + intros [= H]. exists x. split; [reflexivity|]. apply Hiff, H.
    + intros (y & [= <-] & H). f_equal. apply Hiff, H.
  - split; [discriminate|intros (x & Hx & _); discriminate].
  - split; [discriminate|intros (x & Hx & _); discriminate].
Qed.

Lemma valid_trott_iff_target_is_prefix_witness :
  let precision := digit_total [3; 29] + 2 in
  let inside :=
    World (@set_dps Mpmath.provider (dps (mp Mpmath.start) + (precision + 1)))
      (printed Mpmath.start) in
  let shown := dps (@set_prec Mpmath.provider (prec (mp inside))) in
  fst (@valid_trott Mpmath.provider [3; 29] Mpmath.start) = Done true <->
  exists x,
    fst (@cf_to_real Mpmath.provider [3; 29] precision inside)
    = Done (@PyMpf Mpmath.provider x) /\
    String.prefix (cf_to_trott_approx [3; 29])
      (@mpf_str Mpmath.provider shown x) = true.
Proof.
  apply (valid_trott_iff_target_is_prefix Mpmath.provider [3; 29]).
  repeat constructor.
Defined.

(** C4, as stated, fails on [[3, 33333333333333333329]]: the value the
    evaluator computes at the guard precision lies between
    [0.333333333333333333329] and [0.333333333333333333330], so the
    target's digits begin its decimal expansion ([Exact.to_str 40] cuts
    the expansion of a rational after forty digits, without rounding),
    yet [str] rounds it to 39 digits, shows [0.33333333333333333333],
    and the predicate answers false. *)
Lemma expansion_carries_target_yet_rejected :
  let S := [3; 33333333333333333329] in
  let precision := digit_total S + 2 in
  let inside :=
    World (@set_dps Mpmath.provider (dps (mp Mpmath.start) + (precision + 1)))
      (printed Mpmath.start) in
  let shown := dps (@set_prec Mpmath.provider (prec (mp inside))) in
  Forall (fun t => 0 < t) S /\
  cf_to_trott_approx S = "0.333333333333333333329" /\
  shown = 39 /\
  exists x,
    fst (@cf_to_real Mpmath.provider S precision inside)
    = Done (@PyMpf Mpmath.provider x) /\
    Qle (333333333333333333329 # 1000000000000000000000) (Mpmath.value x) /\
    Qlt (Mpmath.value x) (333333333333333333330 # 1000000000000000000000) /\
    Exact.to_str 40 (Mpmath.value x)
    = "0.3333333333333333333299999999999999999995" /\
    String.prefix (cf_to_trott_approx S) (Exact.to_str 40 (Mpmath.value x))
    = true /\
    @mpf_str Mpmath.provider shown x = "0.33333333333333333333" /\
    String.prefix (cf_to_trott_approx S) (@mpf_str Mpmath.provider shown x)
    = false /\
    fst (@valid_trott Mpmath.provider S Mpmath.start) = Done false.
Proof.
  cbv zeta.
  split; [repeat constructor|].
  split; [vm_compute; reflexivity|].
  split; [vm_compute; reflexivity|].
  exists (Mpmath.Raw 0
            2194006076428274722851352182645517926078948757785627881397278333
            (-212) 211).
  split.
  { match goal with
    | |- fst ?run = _ =>
        assert (H : (fun r : outcome (@pyval Mpmath.provider) =>
                       match r with
                       | Done (PyMpf y) => y
                       | _ => Mpmath.fzero
                       end) (fst run)
                    = Mpmath.Raw 0
                        2194006076428274722851352182645517926078948757785627881397278333
                        (-212) 211)
          by (vm_compute; reflexivity);
        destruct (fst run) as [[n|y]|e|]; cbv beta iota in H;
          try discriminate H; rewrite H; reflexivity
    end. }
  split; [apply Qle_bool_imp_le; vm_compute; reflexivity|].
  split; [vm_compute; reflexivity|].
  split; [vm_compute; reflexivity|].
  split; [vm_compute; reflexivity|].
  split; [vm_compute; reflexivity|].
  split; [vm_compute; reflexivity|].
  vm_compute; reflexivity.
Qed.

(** C5.  The eight recorded scenarios of the predicate, in the context
    [mpmath] starts with. *)
Theorem valid_trott_scenarios :
  let valid S := fst (@valid_trott Mpmath.provider S Mpmath.start) in
  valid [3; 29; 5; 7] = Done true /\
  valid [3; 29; 5; 8] = Done false /\
  valid [3] = Done true /\
  valid [3; 30] = Done false /\
  valid [3; 29] = Done true /\
  valid [3; 333329] = Done true /\
  valid [3; 3333329] = Done true /\
  valid [3; 33333329] = Done true.
Proof. vm_compute. repeat split. Qed.

(** C1.  Started from the empty sequence at depth 0, in a context
    [mpmath] can be in, the search only reports sequences that pass the
    predicate when checked on their own, and every proper non-empty
    prefix of a reported sequence was reported before it.  This holds
    for every [max_depth] and [max_term], and for whatever the run ends
    with. *)
Theorem search_reports_valid_prefix_closed
    (P : Provider) (fuel : nat) (max_depth max_term : Z) (w : world) :
  ctx_ok (mp w) ->
  exists reported,
    printed (snd (trott_backtracking fuel [] 0 max_depth max_term w))
    = printed w ++ reported /\
    (forall v, In v reported ->
       forall lines, fst (valid_trott v (World (mp w) lines)) = Done true) /\
    (forall before v after p,
       reported = before ++ v :: after ->
       is_prefix p v -> p <> [] -> p <> v ->
       In p before).
Proof.
  intros Hok.
  destruct (trott_backtracking_run max_depth max_term fuel [] 0 w Hok)
    as (r & new & Hrun & Hvalid & Hclosed).
  exists new. rewrite Hrun. cbn [snd printed].
  split; [reflexivity|]. split.
  - intros v Hin lines.
    destruct (Hvalid v Hin) as (ext & _ & _ & _ & _ & Hv).
    rewrite (valid_trott_run v (World (mp w) lines) Hok). exact Hv.
  - intros before v after p E Hp Hne Hneq.
    apply (Hclosed before v after p E Hp).
    destruct Hp as [rest Ev]. subst v.
    rewrite length_app. cbn [List.length].
    destruct p as [|x p]; [congruence|].
    destruct rest as [|y rest]; [rewrite app_nil_r in Hneq; congruence|].
    cbn [List.length]. lia.
Qed.

Lemma search_reports_valid_prefix_closed_witness :
  exists reported,
    printed (snd (@trott_backtracking Mpmath.provider 2 [] 0 2 4 Mpmath.start))
    = printed Mpmath.start ++ reported /\
    (forall v, In v reported ->
       forall lines,
         fst (@valid_trott Mpmath.provider v (World (mp Mpmath.start) lines))
         = Done true) /\
    (forall before v after p,
       reported = before ++ v :: after ->
       is_prefix p v -> p <> [] -> p <> v ->
       In p before).
Proof.
  apply (search_reports_valid_prefix_closed Mpmath.provider 2 2 4 Mpmath.start).
  vm_compute. reflexivity.
Defined.

(** C8.  Started from the empty sequence at depth 0, every sequence the
    search reports has between 1 and [max_depth] terms, each between 1
    and [max_term - 1]; this holds in any context and for whatever the
    run ends with. *)
Theorem search_reports_within_bounds
    (P : Provider) (fuel : nat) (max_depth max_term : Z) (w : world) :
  exists reported,
    printed (snd (trott_backtracking fuel [] 0 max_depth max_term w))
    = printed w ++ reported /\
    forall v, In v reported ->
      1 <= Z.of_nat (List.length v) <= max_depth /\
      Forall (fun t => 1 <= t <= max_term - 1) v.
Proof.
  destruct (trott_backtracking_shape max_depth max_term fuel [] 0 w)
    as (r & c' & new & Hrun & Hshape).
  exists new. rewrite Hrun. cbn [snd printed].
  split; [reflexivity|].
  intros v Hin.
  destruct (Hshape v Hin) as (ext & -> & Hne & Hlen & Hall).
  cbn [app]. split.
  - destruct ext as [|x ext]; [congruence|]. cbn [List.length] in *. lia.
  - eapply Forall_impl; [|exact Hall]. cbn. intros t Ht. lia.
Qed.

(** C10.  The search terminates for every starting sequence, counter,
    [max_items] and [max_size]: [max_items - count] nested calls are
    always enough, and with that many the run does not depend on the
    fuel; once the counter has reached [max_items] the call returns at
    once. *)
Theorem search_terminates
    (P : Provider) (fuel : nat) (current_cf : list Z)
    (count max_items max_size : Z) (w : world) :
  (Z.to_nat (max_items - count) <= fuel)%nat ->
  fst (trott_backtracking fuel current_cf count max_items max_size w)
  <> OutOfFuel /\
  trott_backtracking fuel current_cf count max_items max_size w
  = trott_backtracking (Z.to_nat (max_items - count)) current_cf count
      max_items max_size w /\
  (max_items <= count ->
   trott_backtracking fuel current_cf count max_items max_size w
   = (Done tt, w)).
Proof.
  intros Hfuel. split; [|split].
  - apply trott_backtracking_no_timeout. exact Hfuel.
  - apply trott_backtracking_fuel; [exact Hfuel|lia].
  - intros Hge. destruct fuel; cbn [trott_backtracking];
      destruct (Z.ltb_spec count max_items); try lia; reflexivity.
Qed.

Lemma search_terminates_witness :
  fst (@trott_backtracking Mpmath.provider 5 [3] 1 3 4 Mpmath.start)
  <> OutOfFuel /\
  @trott_backtracking Mpmath.provider 5 [3] 1 3 4 Mpmath.start
  = @trott_backtracking Mpmath.provider (Z.to_nat (3 - 1)) [3] 1 3 4
      Mpmath.start /\
  (3 <= 1 ->
   @trott_backtracking Mpmath.provider 5 [3] 1 3 4 Mpmath.start
   = (Done tt, Mpmath.start)).
Proof.
  apply (search_terminates Mpmath.provider 5 [3] 1 3 4 Mpmath.start).
  vm_compute. lia.
Defined.

(** C6, as the code has it.  The digit counter raises nothing: a term
    that is zero or negative adds no digit.  An exception met while a
    sequence is evaluated (the provider's division by zero) is not
    turned into a false verdict: it leaves the predicate, and it leaves
    the search, which stops there. *)
Theorem digit_counter_total_and_errors_propagate :
  (forall S,
     exists d,
       count_digits S = Some d /\
       count_digits (filter (fun t => 0 <? t) S) = Some d) /\
  (forall (P : Provider) S d c e,
     count_digits S = Some d ->
     rendered S (d + 2) (World c []) = Raised e ->
     verdict c S = Raised e) /\
  (forall (P : Provider) fuel current_cf count max_items max_size w a e,
     ctx_ok (mp w) ->
     count < max_items -> (0 < fuel)%nat ->
     1 <= a < max_size ->
     verdict (mp w) (current_cf ++ [a]) = Raised e ->
     trott_backtracking fuel current_cf count max_items max_size w
     = (Raised e, w)).
Proof.
  split; [|split].
  - intros S. destruct (count_digits_total S) as [d Hd].
    exists d. split; [exact Hd|].
    unfold count_digits in *. rewrite <- count_digits_for_skip. exact Hd.
  - intros P S d c e Hd Hr. unfold verdict.
    rewrite (valid_trott_rendered S d _ Hd), Hr. reflexivity.
  - intros P fuel current_cf count max_items max_size w a e.
    apply trott_backtracking_raises.
Qed.

Lemma digit_counter_total_and_errors_propagate_witness :
  @verdict Mpmath.provider Mpmath.default_context [0]
  = Raised ZeroDivisionError /\
  @trott_backtracking Mpmath.provider 1 [-1] 0 1 2 Mpmath.start
  = (Raised ZeroDivisionError, Mpmath.start).
Proof.
  destruct digit_counter_total_and_errors_propagate as (_ & Hpred & Hsearch).
  split.
  - apply (Hpred Mpmath.provider [0] 0); vm_compute; reflexivity.
  - apply (Hsearch Mpmath.provider 1%nat [-1] 0 1 2 Mpmath.start 1);
      [vm_compute; reflexivity|lia|lia|lia|vm_compute; reflexivity].
Defined.

(** C6, as stated, fails on [[-5]]: the digit counter returns 0, the
    predicate answers false, and a search started on that sequence runs
    to its end. *)
Lemma negative_term_gives_false_not_error :
  Exists (fun t => t <= 0) [-5] /\
  count_digits [-5] = Some 0 /\
  @valid_trott Mpmath.provider [-5] Mpmath.start = (Done false, Mpmath.start) /\
  fst (@trott_backtracking Mpmath.provider 1 [-5] 0 1 3 Mpmath.start) = Done tt.
Proof.
  split; [constructor; lia|]. vm_compute. repeat split.
Qed.

(** C3.  With exact arithmetic and positive terms, the evaluator folds
    [curr = 1 / (t + curr)] over the terms in reverse order, from
    [curr = 0], and what it returns is the continued fraction
    [1/(a1 + 1/(a2 + ... + 1/an))], whatever the precision asked for; on
    the empty sequence every provider returns the integer 0. *)
Theorem cf_to_real_exact_value (S : list Z) (precision : Z) (w : world) :
  Forall (fun t => 0 < t) S ->
  (exists v,
     fst (@cf_to_real Exact.provider S precision w) = Done v /\
     (Exact.to_Q v == fold_left cf_update (rev S) 0)%Q /\
     (Exact.to_Q v == cf_value S)%Q) /\
  (forall P : Provider, fst (@cf_to_real P [] precision w) = Done (PyInt 0)).
Proof.
  intros Hall. split.
  - destruct (exact_cf_to_real S precision w Hall) as (v & Hrun & Ev).
    exists v. split; [exact Hrun|]. split; [exact Ev|].
    rewrite Ev. symmetry. apply cf_value_fold.
  - intros P. reflexivity.
Qed.

Lemma cf_to_real_exact_value_witness :
  (exists v,
     fst (@cf_to_real Exact.provider [3; 29; 5; 7] 7 Mpmath.start) = Done v /\
     Qeq (Exact.to_Q v) (fold_left cf_update (rev [3; 29; 5; 7]) 0%Q) /\
     Qeq (Exact.to_Q v) (cf_value [3; 29; 5; 7])) /\
  (forall P : Provider,
     fst (@cf_to_real P [] 7 Mpmath.start) = Done (PyInt 0)).
Proof.
  apply (cf_to_real_exact_value [3; 29; 5; 7] 7 Mpmath.start).
  repeat constructor.
Defined.

(** C9.  On a sequence of integers that are all at least 1 the
    evaluator never divides by zero.  Each time the loop is about to
    divide, the running value is in [0, 1] and the denominator
    [mpf(t + curr)] is at least 1; so the evaluator returns a value, and
    on a non-empty sequence that value is in (0, 1].  Stated for the
    [mpmath] provider, whose values are read as rationals. *)
Theorem cf_to_real_never_divides_by_zero
    (S : list Z) (precision : Z) (w : world) :
  Forall (fun t => 1 <= t) S ->
  let inside :=
    World (@set_dps Mpmath.provider (dps (mp w) + (precision + 1))) (printed w) in
  let p := prec (mp inside) in
  (forall done t todo,
     rev S = done ++ t :: todo ->
     exists curr,
       @for_each (@pyval Mpmath.provider) Z done cf_step (PyInt 0) inside
       = (Done curr, inside) /\
       (0 <= Mpmath.to_Q curr <= 1)%Q /\
       (1 <= inject_Z t + Mpmath.to_Q curr)%Q /\
       (1 <= Mpmath.value (py_mpf p (py_add p t curr)))%Q) /\
  exists v,
    fst (@cf_to_real Mpmath.provider S precision w) = Done v /\
    (S <> [] -> (0 < Mpmath.to_Q v <= 1)%Q).
Proof.
  intros Hall inside p.
  destruct (mpmath_cf_to_real S precision w Hall) as [Hsteps Hres].
  split.
  - intros done t todo E.
    destruct (Hsteps done t todo E) as (curr & Hrun & Hcurr & Hden).
    exists curr. split; [exact Hrun|].
    pose proof (mpmath_curr_value curr Hcurr) as [H0 H1].
    split; [split; assumption|]. split.
    + assert (Ht : 1 <= t).
      { assert (Hin : In t (rev S)) by (rewrite E; apply in_or_app; right; left; reflexivity).
        apply in_rev in Hin. rewrite Forall_forall in Hall. exact (Hall t Hin). }
      apply Qle_trans with (inject_Z t + 0)%Q.
      * rewrite Qplus_0_r. change 1%Q with (inject_Z 1). rewrite <- Zle_Qle. exact Ht.
      * apply Qplus_le_r. exact H0.
    + apply MpmathFacts.ge_one_value. exact Hden.
  - destruct Hres as (v & Hrun & Hv & Hne).
    exists v. split; [exact Hrun|].
    intros HS. destruct (Hne HS) as [q ->].
    apply MpmathFacts.unit_pos_value. exact Hv.
Qed.

Lemma cf_to_real_never_divides_by_zero_witness :
  let S := [3; 29; 5; 7] in
  let inside :=
    World (@set_dps Mpmath.provider (dps (mp Mpmath.start) + (7 + 1)))
      (printed Mpmath.start) in
  let p := prec (mp inside) in
  (forall done t todo,
     rev S = done ++ t :: todo ->
     exists curr,
       @for_each (@pyval Mpmath.provider) Z done cf_step (PyInt 0) inside
       = (Done curr, inside) /\
       (0 <= Mpmath.to_Q curr <= 1)%Q /\
       (1 <= inject_Z t + Mpmath.to_Q curr)%Q /\
       (1 <= Mpmath.value (py_mpf p (py_add p t curr)))%Q) /\
  exists v,
    fst (@cf_to_real Mpmath.provider S 7 Mpmath.start) = Done v /\
    (S <> [] -> (0 < Mpmath.to_Q v <= 1)%Q).
Proof.
  apply (cf_to_real_never_divides_by_zero [3; 29; 5; 7] 7 Mpmath.start).
  repeat constructor; discriminate.
Defined.

(** * Further properties *)

(** ** The digit counter and the target, over appended sequences *)

Lemma count_digits_while_shift fuel :
  forall num total,
    count_digits_while fuel num total
    = option_map (Z.add total) (count_digits_while fuel num 0).
Proof.
  induction fuel as [|fuel IH]; intros num total; cbn [count_digits_while];
    destruct (num >? 0); cbn [option_map]; try reflexivity.
  - f_equal. lia.
  - rewrite (IH _ (total + 1)), (IH _ (0 + 1)).
    destruct (count_digits_while fuel (num / 10) 0); cbn [option_map];
      [f_equal; lia|reflexivity].
  - f_equal. lia.
Qed.

Lemma count_digits_for_shift S :
  forall total,
    count_digits_for S total
    = option_map (Z.add total) (count_digits_for S 0).
Proof.
  induction S as [|num S IH]; intros total; cbn [count_digits_for].
  - cbn. f_equal. lia.
  - rewrite (count_digits_while_shift _ num total).
    destruct (count_digits_while (while_fuel num) num 0) as [k|];
      cbn [option_map]; [|reflexivity].
    rewrite (IH (total + k)), (IH k).
    destruct (count_digits_for S 0); cbn [option_map];
      [f_equal; lia|reflexivity].
Qed.

Lemma count_digits_for_app S T :
  forall total,
    count_digits_for (S ++ T) total
    = match count_digits_for S total with
      | Some total' => count_digits_for T total'
      | None => None
      end.
Proof.
  induction S as [|num S IH]; intros total; cbn [app count_digits_for];
    [reflexivity|].
  destruct (count_digits_while (while_fuel num) num total); [apply IH|reflexivity].
Qed.

Lemma count_digits_while_mono fuel :
  forall num total r,
    count_digits_while fuel num total = Some r -> total <= r.
Proof.
  induction fuel as [|fuel IH]; intros num total r; cbn [count_digits_while];
    destruct (num >? 0); try discriminate; try (intros [= <-]; lia).
  intros H. apply IH in H. lia.
Qed.

Lemma count_digits_for_mono S :
  forall total r, count_digits_for S total = Some r -> total <= r.
Proof.
  induction S as [|num S IH]; intros total r; cbn [count_digits_for].
  - intros [= <-]. lia.
  - destruct (count_digits_while _ num total) as [t'|] eqn:E; [|discriminate].
    intros H. apply IH in H. apply count_digits_while_mono in E. lia.
Qed.

(** X1.  The digit counter is additive: on two sequences put end to
    end it returns the sum of what it returns on each, and neither
    count is negative. *)
Theorem count_digits_app (S T : list Z) :
  exists d1 d2,
    count_digits S = Some d1 /\ count_digits T = Some d2 /\
    count_digits (S ++ T) = Some (d1 + d2) /\ 0 <= d1 /\ 0 <= d2.
Proof.
  destruct (count_digits_total S) as [d1 H1].
  destruct (count_digits_total T) as [d2 H2].
  exists d1, d2. split; [exact H1|]. split; [exact H2|].
  unfold count_digits in *. rewrite count_digits_for_app, H1.
  rewrite count_digits_for_shift, H2. cbn.
  split; [reflexivity|].
  split; eapply count_digits_for_mono; eassumption.
Qed.

Lemma string_append_assoc (a b c : string) :
  String.append (String.append a b) c = String.append a (String.append b c).
Proof. induction a as [|x a IH]; cbn; [reflexivity|now rewrite IH]. Qed.

Lemma string_append_nil_r (a : string) : String.append a "" = a.
Proof. induction a as [|x a IH]; cbn; [reflexivity|now rewrite IH]. Qed.

Lemma join_app l1 l2 :
  Py.join (l1 ++ l2) = String.append (Py.join l1) (Py.join l2).
Proof.
  unfold Py.join. induction l1 as [|s l1 IH]; [reflexivity|].
  destruct l1 as [|s' l1].
  - cbn [app String.concat] in *.
    destruct l2 as [|t l2]; cbn [String.concat].
    + now rewrite string_append_nil_r.
    + reflexivity.
  - change ((s :: s' :: l1) ++ l2) with (s :: (s' :: l1) ++ l2).
    change (String.concat "" (s :: (s' :: l1) ++ l2))
      with (String.append s (String.append "" (String.concat "" ((s' :: l1) ++ l2)))).
    rewrite IH. cbn [String.concat String.append].
    rewrite string_append_assoc. reflexivity.
Qed.

Lemma prefix_append a b : String.prefix a (String.append a b) = true.
Proof.
  induction a as [|x a IH]; cbn.
  - destruct b; reflexivity.
  - destruct (ascii_dec x x); [exact IH|congruence].
Qed.

(** X2.  The target of a sequence extended by further terms is the
    target of the sequence followed by the decimal strings of the new
    terms, so the shorter target is a prefix of the longer one. *)
Theorem cf_to_trott_approx_app (S T : list Z) :
  cf_to_trott_approx (S ++ T)
  = String.append (cf_to_trott_approx S) (Py.join (map Py.str T))
  /\ String.prefix (cf_to_trott_approx S) (cf_to_trott_approx (S ++ T)) = true.
Proof.
  assert (E : cf_to_trott_approx (S ++ T)
              = String.append (cf_to_trott_approx S) (Py.join (map Py.str T))).
  { unfold cf_to_trott_approx. rewrite map_app, join_app.
    rewrite string_append_assoc. reflexivity. }
  split; [exact E|]. rewrite E. apply prefix_append.
Qed.

(** ** The [with] blocks *)

(** X3.  In a context that an assignment to [mp.prec] leaves alone, the
    evaluator and the predicate hand the whole state back as they found
    it, whatever their outcome: the precision raised inside their
    [with] blocks is restored and nothing is printed. *)
Theorem with_blocks_restore_the_context
    (P : Provider) (S : list Z) (precision : Z) (w : world) :
  ctx_ok (mp w) ->
  snd (cf_to_real S precision w) = w /\ snd (valid_trott S w) = w.
Proof.
  intros Hok. rewrite cf_to_real_world, valid_trott_world.
  unfold ctx_ok in Hok. rewrite Hok. split; apply world_eta.
Qed.

Lemma with_blocks_restore_the_context_witness :
  snd (@cf_to_real Mpmath.provider [3; 29] 5 Mpmath.start) = Mpmath.start /\
  snd (@valid_trott Mpmath.provider [3; 29] Mpmath.start) = Mpmath.start.
Proof.
  apply (with_blocks_restore_the_context Mpmath.provider [3; 29] 5
           Mpmath.start).
  vm_compute. reflexivity.
Defined.

(** X4.  The predicate turns the empty sequence down, with any provider
    and in any context: the evaluator returns the [int] [0], whose
    string ["0"] is not the target ["0."]. *)
Theorem valid_trott_rejects_the_empty_sequence (P : Provider) (w : world) :
  fst (valid_trott [] w) = Done false.
Proof. reflexivity. Qed.

(** ** A zero on the last term *)

Lemma mpmath_cf_loop_zero_first l w :
  @for_each (@pyval Mpmath.provider) Z (0 :: l) cf_step (PyInt 0) w
  = (Raised ZeroDivisionError, w).
Proof. reflexivity. Qed.

Lemma mpmath_cf_to_real_zero_last S precision w :
  fst (@cf_to_real Mpmath.provider (S ++ [0]) precision w)
  = Raised ZeroDivisionError.
Proof.
  unfold cf_to_real, extradps. rewrite rev_app_distr. cbn [rev app].
  rewrite mpmath_cf_loop_zero_first. reflexivity.
Qed.

(** X5.  On the [mpmath] provider a sequence whose last term is [0]
    makes the evaluator, and so the predicate, raise
    [ZeroDivisionError]: the first division is [1 / mpf(0)]. *)
Theorem zero_last_term_raises (S : list Z) (precision : Z) (w : world) :
  fst (@cf_to_real Mpmath.provider (S ++ [0]) precision w)
  = Raised ZeroDivisionError /\
  fst (@valid_trott Mpmath.provider (S ++ [0]) w) = Raised ZeroDivisionError.
Proof.
  split; [apply mpmath_cf_to_real_zero_last|].
  destruct (count_digits_total (S ++ [0])) as [d Hd].
  rewrite (valid_trott_rendered _ d w Hd).
  unfold rendered, bind.
  pose proof (mpmath_cf_to_real_zero_last S (d + 2)
                (World (@set_dps Mpmath.provider (dps (mp w) + (d + 2 + 1))) (printed w)))
    as Hr.
  destruct (cf_to_real (S ++ [0]) (d + 2) _) as [r w1]. cbn [fst] in *.
  rewrite Hr. reflexivity.
Qed.

(** ** Positive terms on the [mpmath] provider *)

Lemma mpmath_valid_trott_done S w :
  Forall (fun t => 1 <= t) S ->
  exists b, fst (@valid_trott Mpmath.provider S w) = Done b.
Proof.
  intros Hall.
  assert (Hpos : Forall (fun t => 0 < t) S).
  { eapply Forall_impl; [|exact Hall]. cbn. intros; lia. }
  rewrite (valid_trott_rendered S _ w (count_digits_pos S Hpos)).
  unfold rendered, bind.
  destruct (mpmath_cf_to_real S (digit_total S + 2)
              (World (@set_dps Mpmath.provider
                        (dps (mp w) + (digit_total S + 2 + 1))) (printed w))
              Hall) as [_ (v & Hv & _)].
  destruct (cf_to_real S (digit_total S + 2) _) as [r w1]. cbn [fst] in *.
  subst r. cbn. eauto.
Qed.


(** X6.  On the [mpmath] provider the predicate answers [True] or
    [False] on every sequence of positive terms, in any context: it
    does not raise, prints nothing and leaves [mp.prec] as an
    assignment of its own value leaves it. *)
Theorem valid_trott_answers_on_positive_terms (S : list Z) (w : world) :
  Forall (fun t => 1 <= t) S ->
  exists b,
    @valid_trott Mpmath.provider S w
    = (Done b, World (@set_prec Mpmath.provider (prec (mp w))) (printed w)).
Proof.
  intros Hall.
  destruct (mpmath_valid_trott_done S w Hall) as [b Hb].
  exists b.
  pose proof (@valid_trott_world Mpmath.provider S w) as Hw.
  destruct (@valid_trott Mpmath.provider S w) as [r w'].
  cbn [fst snd] in Hb, Hw. subst r w'. reflexivity.
Qed.

Lemma valid_trott_answers_on_positive_terms_witness :
  exists b,
    @valid_trott Mpmath.provider [3; 29] Mpmath.start
    = (Done b,
       World (@set_prec Mpmath.provider (prec (mp Mpmath.start)))
         (printed Mpmath.start)).
Proof.
  apply (valid_trott_answers_on_positive_terms [3; 29] Mpmath.start).
  constructor; [lia|]. constructor; [lia|]. constructor.
Defined.

(** ** The for-loop solution is the search, three levels deep *)

Section Interleave.
Context {P : Provider}.

Lemma for_each_ext_inv {A B} (I : world -> Prop) (f g : A -> B -> M A)
    (l : list B) :
  (forall acc x w, I w -> In x l ->
     f acc x w = g acc x w /\ I (snd (g acc x w))) ->
  forall acc w, I w -> for_each l f acc w = for_each l g acc w.
Proof.
  induction l as [|x l IH]; intros H acc w Hw; [reflexivity|].
  cbn [for_each]. unfold bind.
  destruct (H acc x w Hw (or_introl eq_refl)) as [E HI]. rewrite E.
  destruct (g acc x w) as [[a|e|] w']; cbn [snd] in HI; try reflexivity.
  apply IH; [|exact HI].
  intros acc' x' w'' Hw'' Hin. apply H; [exact Hw''|right; exact Hin].
Qed.

Lemma unit_loop_cons {B} (body : unit -> B -> M unit) v vs w :
  for_each (v :: vs) body tt w
  = match body tt v w with
    | (Done _, w') => for_each vs body tt w'
    | (Raised e, w') => (Raised e, w')
    | (OutOfFuel, w') => (OutOfFuel, w')
    end.
Proof.
  cbn [for_each]. unfold bind.
  destruct (body tt v w) as [[[]|e|] w']; reflexivity.
Qed.

Lemma for_each_app_unit {B} (body : unit -> B -> M unit) l1 l2 w :
  for_each (l1 ++ l2) body tt w
  = match for_each l1 body tt w with
    | (Done _, w') => for_each l2 body tt w'
    | (Raised e, w') => (Raised e, w')
    | (OutOfFuel, w') => (OutOfFuel, w')
    end.
Proof.
  revert w. induction l1 as [|x l1 IH]; intros w; [reflexivity|].
  cbn [app for_each]. unfold bind.
  destruct (body tt x w) as [[[]|e|] w']; try reflexivity. apply IH.
Qed.

Lemma report_loop_mp (below : list Z -> M unit) c :
  (forall v w, mp w = c -> mp (snd (below v w)) = c) ->
  forall vs w,
    mp w = c ->
    mp (snd (for_each vs (fun _ v => print v ;; below v) tt w)) = c.
Proof.
  intros Hbelow. induction vs as [|v vs IH]; intros w Hc; [exact Hc|].
  cbn [for_each]. unfold bind at 1 2. unfold print at 1.
  pose proof (Hbelow v (World (mp w) (printed w ++ [v])) Hc) as Hm.
  destruct (below v _) as [[[]|e|] w']; cbn [snd] in *; try exact Hm.
  apply IH. exact Hm.
Qed.

Lemma extend_step_run (below : list Z -> M unit) c cur a b w :
  ctx_ok c -> mp w = c ->
  verdict c (cur ++ [a]) = Done b ->
  extend_step below cur tt a w
  = if b then (print (cur ++ [a]) ;; below (cur ++ [a])) w else (Done tt, w).
Proof.
  intros Hok Hc Hb. unfold extend_step. unfold bind at 1.
  rewrite valid_trott_run by (rewrite Hc; exact Hok).
  rewrite Hc, Hb. destruct b; reflexivity.
Qed.

Lemma collect_valid_cons c cur a b l acc w :
  ctx_ok c -> mp w = c ->
  verdict c (cur ++ [a]) = Done b ->
  for_each (a :: l) (collect_valid cur) acc w
  = for_each l (collect_valid cur)
      (if b then acc ++ [cur ++ [a]] else acc) w.
Proof.
  intros Hok Hc Hb. cbn [for_each]. unfold bind at 1.
  unfold collect_valid at 1. unfold bind at 1.
  rewrite valid_trott_run by (rewrite Hc; exact Hok).
  rewrite Hc, Hb. reflexivity.
Qed.

(** The two loops of the search, fused: when no check raises, checking
    all extensions first and then printing each survivor is the same as
    checking and printing them one at a time. *)
Lemma two_phase_is_interleaved (below : list Z -> M unit) c cur :
  ctx_ok c ->
  (forall v w, mp w = c -> mp (snd (below v w)) = c) ->
  forall l,
    (forall a, In a l -> exists b, verdict c (cur ++ [a]) = Done b) ->
    forall acc w,
      mp w = c ->
      match for_each l (collect_valid cur) acc w with
      | (Done valid, w') => for_each valid (fun _ v => print v ;; below v) tt w'
      | (Raised e, w') => (Raised e, w')
      | (OutOfFuel, w') => (OutOfFuel, w')
      end
      = match for_each acc (fun _ v => print v ;; below v) tt w with
        | (Done _, w') => for_each l (extend_step below cur) tt w'
        | (Raised e, w') => (Raised e, w')
        | (OutOfFuel, w') => (OutOfFuel, w')
        end.
Proof.
  intros Hok Hbelow. induction l as [|a l IH]; intros Hpure acc w Hc.
  - cbn [for_each ret].
    destruct (for_each acc _ tt w) as [[[]|e|] w']; reflexivity.
  - assert (Hpure' : forall a0, In a0 l ->
                       exists b0, verdict c (cur ++ [a0]) = Done b0)
      by (intros a0 Hin; apply Hpure; right; exact Hin).
    specialize (IH Hpure').
    destruct (Hpure a (or_introl eq_refl)) as [b Hb].
    rewrite (collect_valid_cons c cur a b l acc w Hok Hc Hb).
    rewrite (IH _ w Hc). clear IH.
    pose proof (report_loop_mp below c Hbelow acc w Hc) as Hm.
    destruct b.
    + rewrite for_each_app_unit.
      destruct (for_each acc _ tt w) as [[[]|e|] w1]; cbn [snd] in Hm;
        try reflexivity.
      rewrite !unit_loop_cons.
      rewrite (extend_step_run below c cur a true w1 Hok Hm Hb).
      destruct ((print (cur ++ [a]) ;; below (cur ++ [a])) w1)
        as [[[]|e|] w2]; reflexivity.
    + destruct (for_each acc _ tt w) as [[[]|e|] w1]; cbn [snd] in Hm;
        try reflexivity.
      rewrite unit_loop_cons.
      rewrite (extend_step_run below c cur a false w1 Hok Hm Hb).
      reflexivity.
Qed.

End Interleave.

Section Interleave2.
Context {P : Provider}.

Lemma trott_backtracking_mp max_items max_size fuel cur count w :
  ctx_ok (mp w) ->
  mp (snd (trott_backtracking fuel cur count max_items max_size w)) = mp w.
Proof.
  intros Hok.
  destruct (trott_backtracking_run max_items max_size fuel cur count w Hok)
    as (r & new & -> & _).
  reflexivity.
Qed.

Lemma trott_backtracking_interleaved max_items max_size fuel cur count w :
  ctx_ok (mp w) -> count < max_items ->
  (forall a, 1 <= a < max_size ->
     exists b, verdict (mp w) (cur ++ [a]) = Done b) ->
  trott_backtracking (S fuel) cur count max_items max_size w
  = for_each (Py.range 1 max_size)
      (extend_step
         (fun v => trott_backtracking fuel v (count + 1) max_items max_size)
         cur)
      tt w.
Proof.
  intros Hok Hlt Hpure. cbn [trott_backtracking].
  destruct (Z.ltb_spec count max_items) as [_|Hge]; [|lia].
  pose proof (two_phase_is_interleaved
                (fun v => trott_backtracking fuel v (count + 1)
                            max_items max_size)
                (mp w) cur Hok) as H.
  specialize (H ltac:(intros v w' Hc; rewrite <- Hc;
                      apply trott_backtracking_mp; rewrite Hc; exact Hok)).
  specialize (H (Py.range 1 max_size)
                ltac:(intros a Hin; apply Hpure, (in_range _ _ _ Hin))
                [] w eq_refl).
  cbn [for_each ret] in H. rewrite <- H. clear H.
  unfold bind at 1.
  destruct (for_each (Py.range 1 max_size) (collect_valid cur) [] w)
    as [[valid|e|] w']; try reflexivity.
  rewrite guarded_loop. reflexivity.
Qed.

Lemma extend_step_mp (below : list Z -> M unit) cur a w :
  ctx_ok (mp w) ->
  (forall v w', mp w' = mp w -> mp (snd (below v w')) = mp w) ->
  mp (snd (extend_step below cur tt a w)) = mp w.
Proof.
  intros Hok Hbelow. unfold extend_step. unfold bind at 1.
  rewrite valid_trott_run by exact Hok.
  destruct (verdict (mp w) (cur ++ [a])) as [[|]|e|]; try reflexivity.
  unfold bind, print. 
  pose proof (Hbelow (cur ++ [a]) (World (mp w) (printed w ++ [cur ++ [a]]))
                eq_refl) as H.
  destruct (below _ _) as [[[]|e|] w']; exact H.
Qed.

Lemma checked_branch S (k1 k2 : bool -> M unit) w :
  ctx_ok (mp w) ->
  (forall b, verdict (mp w) S = Done b -> k1 b w = k2 b w) ->
  (b <- valid_trott S ;; k1 b) w = (b <- valid_trott S ;; k2 b) w.
Proof.
  intros Hok H. unfold bind. rewrite valid_trott_run by exact Hok.
  destruct (verdict (mp w) S) as [b|e|] eqn:E; try reflexivity.
  apply H. reflexivity.
Qed.

Lemma print_then v (m1 m2 : M unit) w :
  (forall w', mp w' = mp w -> m1 w' = m2 w') ->
  (print v ;; m1) w = (print v ;; m2) w.
Proof. intros H. unfold bind, print. apply H. reflexivity. Qed.

End Interleave2.

(** X7.  On the [mpmath] provider, in a context that an assignment to
    [mp.prec] leaves alone, the three nested loops of the for-loop
    solution are the backtracking search run from the empty sequence
    with three levels and [max_size = ITEM_MAX]: same outcome, same
    sequences reported in the same order, same final state.  (The
    search writes each sequence after the text [VALID: ] and to [file];
    a reported line is the sequence itself in both.) *)
Theorem for_loop_solution_is_the_search_three_deep (ITEM_MAX : Z) (w : world) :
  @ctx_ok Mpmath.provider (mp w) ->
  @for_loop_solution Mpmath.provider ITEM_MAX w
  = @trott_backtracking Mpmath.provider 3 [] 0 3 ITEM_MAX w.
Proof.
  intros Hok.
  assert (Hpure : forall cur c, Forall (fun t => 1 <= t) cur ->
            forall a, 1 <= a < ITEM_MAX ->
              exists b, @verdict Mpmath.provider c (cur ++ [a]) = Done b).
  { intros cur c Hcur a Ha. apply mpmath_valid_trott_done.
    apply Forall_app. split; [exact Hcur|]. constructor; [lia|constructor]. }
  assert (Hinv : forall fuel cur count w1,
            @ctx_ok Mpmath.provider (mp w1) ->
            forall a,
              mp (snd (@extend_step Mpmath.provider
                         (fun v => @trott_backtracking Mpmath.provider
                                     fuel v count 3 ITEM_MAX)
                         cur tt a w1)) = mp w1).
  { intros fuel cur count w1 Hok1 a. apply extend_step_mp; [exact Hok1|].
    intros v w' Hc. rewrite <- Hc. apply trott_backtracking_mp.
    rewrite Hc. exact Hok1. }
  rewrite (trott_backtracking_interleaved 3 ITEM_MAX 2 [] 0 w);
    [|exact Hok|lia|apply Hpure; constructor].
  unfold for_loop_solution.
  apply (for_each_ext_inv (fun w' => mp w' = mp w)); [|reflexivity].
  intros [] i w1 Hw1 Hi. apply in_range in Hi.
  assert (Hok1 : @ctx_ok Mpmath.provider (mp w1)) by (rewrite Hw1; exact Hok).
  split; [|rewrite <- Hw1; apply Hinv; exact Hok1].
  unfold extend_step. cbn [app].
  apply checked_branch; [exact Hok1|]. intros [|] _; [|reflexivity].
  apply print_then. intros w2 Hw2.
  assert (Hok2 : @ctx_ok Mpmath.provider (mp w2)) by (rewrite Hw2; exact Hok1).
  change (0 + 1) with 1.
  rewrite (trott_backtracking_interleaved 3 ITEM_MAX 1 [i] 1 w2);
    [|exact Hok2|lia|apply Hpure; constructor; [lia|constructor]].
  apply (for_each_ext_inv (fun w' => mp w' = mp w2)); [|reflexivity].
  intros [] j w3 Hw3 Hj. apply in_range in Hj.
  assert (Hok3 : @ctx_ok Mpmath.provider (mp w3)) by (rewrite Hw3; exact Hok2).
  split; [|rewrite <- Hw3; apply Hinv; exact Hok3].
  unfold extend_step. cbn [app].
  apply checked_branch; [exact Hok3|]. intros [|] _; [|reflexivity].
  apply print_then. intros w4 Hw4.
  assert (Hok4 : @ctx_ok Mpmath.provider (mp w4)) by (rewrite Hw4; exact Hok3).
  change (1 + 1) with 2.
  rewrite (trott_backtracking_interleaved 3 ITEM_MAX 0 [i; j] 2 w4);
    [|exact Hok4|lia
     |apply Hpure; constructor; [lia|constructor; [lia|constructor]]].
  apply (for_each_ext_inv (fun w' => mp w' = mp w4)); [|reflexivity].
  intros [] k w5 Hw5 Hk. apply in_range in Hk.
  assert (Hok5 : @ctx_ok Mpmath.provider (mp w5)) by (rewrite Hw5; exact Hok4).
  split; [|rewrite <- Hw5; apply Hinv; exact Hok5].
  unfold extend_step. cbn [app].
  apply checked_branch; [exact Hok5|]. intros [|] _; reflexivity.
Qed.

Lemma for_loop_solution_is_the_search_three_deep_witness :
  @for_loop_solution Mpmath.provider 60 Mpmath.start
  = @trott_backtracking Mpmath.provider 3 [] 0 3 60 Mpmath.start.
Proof.
  apply (for_loop_solution_is_the_search_three_deep 60 Mpmath.start).
  vm_compute. reflexivity.
Defined.

(** ** The search on the [mpmath] provider *)

Lemma for_each_no_raise_in {A B} (body : A -> B -> M A) (l : list B) :
  (forall acc x w e, In x l -> fst (body acc x w) <> Raised e) ->
  forall acc w e, fst (for_each l body acc w) <> Raised e.
Proof.
  induction l as [|x l IH]; intros Hbody acc w e; [discriminate|].
  cbn [for_each]. unfold bind.
  pose proof (Hbody acc x w) as Hx.
  destruct (body acc x w) as [[a|e'|] w']; cbn [fst] in *.
  - apply IH. intros acc' x' w'' e'' Hin. apply Hbody. right. exact Hin.
  - exfalso. apply (Hx e'); [left|]; reflexivity.
  - discriminate.
Qed.

Section MpmathSearch.

#[local] Existing Instance Mpmath.provider.

Lemma mpmath_search_no_raise max_items max_size fuel :
  forall cur count w e,
    Forall (fun t => 1 <= t) cur ->
    fst (@trott_backtracking Mpmath.provider fuel cur count max_items max_size w)
    <> Raised e.
Proof.
  induction fuel as [|fuel IH]; intros cur count w e Hcur;
    cbn [trott_backtracking];
    destruct (Z.ltb_spec count max_items) as [Hlt|Hge]; try discriminate.
  unfold bind at 1.
  pose proof (for_each_no_raise_in (@collect_valid Mpmath.provider cur)
                (Py.range 1 max_size)) as Hfirst.
  specialize (Hfirst ltac:(
    intros acc a w0 e0 Hin; apply in_range in Hin;
    unfold collect_valid, bind;
    destruct (mpmath_valid_trott_done (cur ++ [a]) w0) as [b Hb];
    [apply Forall_app; split; [exact Hcur|constructor; [lia|constructor]]|];
    destruct (valid_trott (cur ++ [a]) w0) as [r w1]; cbn [fst] in Hb;
    subst r; discriminate) [] w e).
  destruct (collect_valid_shape cur (Py.range 1 max_size) [] w)
    as (r1 & c1 & Hrun1 & Hspec).
  rewrite Hrun1 in *. cbn [fst] in Hfirst.
  destruct r1 as [valid|e1|];
    [|destruct e, e1; congruence|cbn; discriminate].
  rewrite guarded_loop.
  destruct (Hspec valid eq_refl) as (extra & -> & Hall). cbn [app].
  apply for_each_no_raise_in.
  intros [] v w2 e2 Hin. unfold bind, print.
  rewrite Forall_forall in Hall.
  destruct (Hall v Hin) as (a & Ha & ->). apply in_range in Ha.
  apply IH. apply Forall_app. split; [exact Hcur|constructor; [lia|constructor]].
Qed.


End MpmathSearch.

(** X8.  On the [mpmath] provider the search started on a sequence of
    positive terms ends normally: no call of the predicate below it
    raises, and [max_items - count] nested calls are enough. *)
Theorem search_on_positive_terms_finishes
    (fuel : nat) (current_cf : list Z) (count max_items max_size : Z)
    (w : world) :
  Forall (fun t => 1 <= t) current_cf ->
  (Z.to_nat (max_items - count) <= fuel)%nat ->
  fst (@trott_backtracking Mpmath.provider fuel current_cf count
         max_items max_size w) = Done tt.
Proof.
  intros Hcur Hfuel.
  pose proof (mpmath_search_no_raise max_items max_size fuel
                current_cf count w) as Hr.
  pose proof (@trott_backtracking_no_timeout Mpmath.provider max_items
                max_size fuel current_cf count w Hfuel) as Ht.
  destruct (fst (@trott_backtracking Mpmath.provider fuel current_cf count
                   max_items max_size w))
    as [[]|e|]; [reflexivity| |congruence].
  exfalso. exact (Hr e Hcur eq_refl).
Qed.

Lemma search_on_positive_terms_finishes_witness :
  fst (@trott_backtracking Mpmath.provider 3 [3] 1 3 60 Mpmath.start)
  = Done tt.
Proof.
  apply (search_on_positive_terms_finishes 3 [3] 1 3 60 Mpmath.start).
  - constructor; [lia|constructor].
  - vm_compute. lia.
Defined.

(** ** The search reports every fully valid sequence *)

Section Completeness.
Context {P : Provider}.


Lemma collect_valid_keeps cur l :
  forall acc w valid w',
    ctx_ok (mp w) ->
    for_each l (collect_valid cur) acc w = (Done valid, w') ->
    (forall v, In v acc -> In v valid) /\
    (forall a, In a l -> verdict (mp w) (cur ++ [a]) = Done true ->
               In (cur ++ [a]) valid).
Proof.
  induction l as [|x l IH]; intros acc w valid w' Hok Hrun.
  - cbn in Hrun. injection Hrun as <- <-. split; [auto|intros a []].
  - cbn [for_each] in Hrun. unfold bind at 1 in Hrun.
    unfold collect_valid at 1 in Hrun. unfold bind at 1 in Hrun.
    rewrite (valid_trott_run _ w Hok) in Hrun.
    destruct (verdict (mp w) (cur ++ [x])) as [b|e|] eqn:Hv;
      cbn [ret] in Hrun; try discriminate.
    destruct (IH _ _ _ _ Hok Hrun) as [Hacc Hl]. split.
    + intros v Hin. apply Hacc. destruct b; [apply in_or_app; left|]; exact Hin.
    + intros a [<-|Hin] Ha.
      * rewrite Hv in Ha. injection Ha as ->.
        apply Hacc. apply in_or_app. right. left. reflexivity.
      * apply Hl; assumption.
Qed.

Lemma report_loop_complete (rec : list Z -> M unit) c
    (Q : list Z -> list (list Z) -> Prop) :
  (forall v w, mp w = c ->
     exists r new,
       rec v w = (r, World c (printed w ++ new)) /\
       (r = Done tt -> Q v new)) ->
  forall vs w new,
    mp w = c ->
    for_each vs (fun _ v => print v ;; rec v) tt w
    = (Done tt, World c (printed w ++ new)) ->
    forall v, In v vs ->
      In v new /\ exists new_v, Q v new_v /\ incl new_v new.
Proof.
  intros Hrec. induction vs as [|v0 vs IH]; intros w new Hc Hrun v Hin;
    [destruct Hin|].
  cbn [for_each] in Hrun. unfold bind at 1 2 in Hrun. unfold print at 1 in Hrun.
  destruct (Hrec v0 (World (mp w) (printed w ++ [v0])) Hc)
    as (r & new0 & Hrun0 & HQ).
  rewrite Hrun0 in Hrun. cbn [printed] in Hrun.
  destruct r as [[]|e|]; try discriminate.
  set (w2 := World c ((printed w ++ [v0]) ++ new0)) in *.
  assert (Hnew : exists new', new = (v0 :: new0) ++ new' /\
                   for_each vs (fun _ v => print v ;; rec v) tt w2
                   = (Done tt, World c (printed w2 ++ new'))).
  { assert (Hframe : exists r' new',
              for_each vs (fun _ v => print v ;; rec v) tt w2
              = (r', World c (printed w2 ++ new'))).
    { clear -Hrec. generalize w2 (eq_refl : mp w2 = c).
      induction vs as [|u vs IHv]; intros w0 Hc0.
      - exists (Done tt), []. cbn. rewrite app_nil_r, <- Hc0, world_eta.
        reflexivity.
      - cbn [for_each]. unfold bind at 1 2. unfold print at 1.
        destruct (Hrec u (World (mp w0) (printed w0 ++ [u])) Hc0)
          as (r1 & n1 & Hr1 & _).
        rewrite Hr1. cbn [printed].
        destruct r1 as [[]|e|].
        + destruct (IHv (World c ((printed w0 ++ [u]) ++ n1)) eq_refl)
            as (r2 & n2 & Hr2).
          exists r2, ((u :: n1) ++ n2). rewrite Hr2. cbn [printed].
          rewrite <- !app_assoc. reflexivity.
        + exists (Raised e), (u :: n1). rewrite <- !app_assoc. reflexivity.
        + exists OutOfFuel, (u :: n1). rewrite <- !app_assoc. reflexivity. }
    destruct Hframe as (r' & new' & Hf).
    rewrite Hf in Hrun. injection Hrun as -> Hp.
    exists new'. split; [|exact Hf].
    unfold w2 in Hp. cbn [printed] in Hp.
    rewrite <- !app_assoc in Hp. apply app_inv_head in Hp.
    symmetry. exact Hp. }
  destruct Hnew as (new' & -> & Hrest).
  destruct Hin as [<-|Hin].
  - split; [left; reflexivity|].
    exists new0. split; [apply HQ; reflexivity|].
    intros x Hx. cbn. right. apply in_or_app. left. exact Hx.
  - destruct (IH w2 new' eq_refl Hrest v Hin) as (Hv & new_v & HQv & Hincl).
    split.
    + apply in_or_app. right. exact Hv.
    + exists new_v. split; [exact HQv|].
      intros x Hx. apply in_or_app. right. apply Hincl, Hx.
Qed.

Lemma trott_backtracking_complete max_items max_size fuel :
  forall cur count w new,
    ctx_ok (mp w) ->
    trott_backtracking fuel cur count max_items max_size w
    = (Done tt, World (mp w) (printed w ++ new)) ->
    forall ext,
      ext <> [] ->
      Z.of_nat (List.length ext) <= max_items - count ->
      Forall (fun t => 1 <= t < max_size) ext ->
      fully_valid (mp w) cur ext ->
      In (cur ++ ext) new.
Proof.
  induction fuel as [|fuel IH]; intros cur count w new Hok Hrun ext Hne Hlen
    Hrange Hvalid; cbn [trott_backtracking] in Hrun;
    destruct (Z.ltb_spec count max_items) as [Hlt|Hge]; try discriminate;
    try (destruct ext; [congruence|cbn [List.length] in Hlen; lia]).
  unfold bind at 1 in Hrun.
  destruct (collect_valid_run cur (Py.range 1 max_size) [] w Hok)
    as (r1 & Hrun1 & _ & _).
  rewrite Hrun1 in Hrun.
  destruct r1 as [valid|e|]; try discriminate.
  rewrite guarded_loop in Hrun.
  destruct ext as [|a ext]; [congruence|].
  inversion Hrange as [|? ? Ha Hrange']; subst.
  assert (Hva : verdict (mp w) (cur ++ [a]) = Done true).
  { apply Hvalid; [exists ext; reflexivity|discriminate]. }
  destruct (collect_valid_keeps _ _ _ _ _ _ Hok Hrun1) as [_ Hkeep].
  specialize (Hkeep a (range_in _ _ _ Ha) Hva).
  pose proof (report_loop_complete
                (fun v => trott_backtracking fuel v (count + 1)
                            max_items max_size)
                (mp w)
                (fun v new_v =>
                   forall ext',
                     ext' <> [] ->
                     Z.of_nat (List.length ext') <= max_items - (count + 1) ->
                     Forall (fun t => 1 <= t < max_size) ext' ->
                     fully_valid (mp w) v ext' ->
                     In (v ++ ext') new_v)) as Hloop.
  specialize (Hloop ltac:(
    intros v w0 Hc;
    assert (Hok0 : ctx_ok (mp w0)) by (rewrite Hc; exact Hok);
    destruct (trott_backtracking_run max_items max_size fuel v (count + 1)
                w0 Hok0) as (r & new0 & Hr & _);
    exists r, new0; rewrite Hr, Hc; split; [reflexivity|];
    intros ->; intros ext' H1 H2 H3 H4;
    apply (IH v (count + 1) w0 new0 Hok0);
      [rewrite Hr; reflexivity|assumption|assumption|assumption
      |rewrite Hc; exact H4])).
  destruct (Hloop valid w new eq_refl Hrun (cur ++ [a]) Hkeep)
    as (Hin & new_v & HQ & Hincl).
  destruct ext as [|b ext].
  - exact Hin.
  - apply Hincl. rewrite (app_assoc cur [a] (b :: ext)) at 1.
    replace (cur ++ a :: b :: ext) with ((cur ++ [a]) ++ b :: ext)
      by (rewrite <- app_assoc; reflexivity).
    apply HQ.
    + discriminate.
    + cbn [List.length] in *. lia.
    + exact Hrange'.
    + intros q Hq Hqne. rewrite <- app_assoc. cbn [app].
      apply Hvalid; [|discriminate].
      destruct Hq as [rest ->]. exists rest. reflexivity.
Qed.

End Completeness.


(** ** The order of the printed lines *)

Section Order.
Context {P : Provider}.


Lemma list_lt_app cur u v : list_lt (cur ++ u) (cur ++ v) = list_lt u v.
Proof.
  induction cur as [|c cur IH]; [reflexivity|].
  cbn. rewrite Z.ltb_irrefl, Z.eqb_refl, IH. reflexivity.
Qed.

Lemma list_lt_extension cur ext : ext <> [] -> list_lt cur (cur ++ ext) = true.
Proof.
  intros Hne. rewrite <- (app_nil_r cur) at 1. rewrite list_lt_app.
  destruct ext; [congruence|reflexivity].
Qed.

Lemma list_lt_branch cur a b x y :
  a < b -> list_lt (cur ++ a :: x) (cur ++ b :: y) = true.
Proof.
  intros Hab. rewrite list_lt_app. cbn.
  apply Z.ltb_lt in Hab. rewrite Hab. reflexivity.
Qed.

Lemma list_lt_irrefl u : list_lt u u = false.
Proof.
  induction u as [|a u IH]; [reflexivity|].
  cbn. rewrite Z.ltb_irrefl, Z.eqb_refl, IH. reflexivity.
Qed.

Lemma sorted_app {A} (R : A -> A -> Prop) l1 l2 :
  StronglySorted R l1 -> StronglySorted R l2 ->
  (forall x y, In x l1 -> In y l2 -> R x y) ->
  StronglySorted R (l1 ++ l2).
Proof.
  induction l1 as [|a l1 IH]; intros H1 H2 Hc; [exact H2|].
  inversion H1 as [|? ? Hs Hall]; subst. cbn. constructor.
  - apply IH; [exact Hs|exact H2|]. intros x y Hx Hy. apply Hc; [right|]; auto.
  - apply Forall_app. split; [exact Hall|].
    apply Forall_forall. intros y Hy. apply Hc; [left; reflexivity|exact Hy].
Qed.

Lemma sorted_nodup l :
  StronglySorted (fun u v => list_lt u v = true) l -> NoDup l.
Proof.
  induction 1 as [|a l Hs IH Hall]; constructor; [|exact IH].
  intros Hin. rewrite Forall_forall in Hall. specialize (Hall a Hin).
  rewrite list_lt_irrefl in Hall. discriminate.
Qed.

Lemma range_sorted lo hi : StronglySorted Z.lt (Py.range lo hi).
Proof.
  unfold Py.range. generalize (Z.to_nat (hi - lo)) as n. generalize 0%nat as s.
  intros s n. revert s. induction n as [|n IH]; intros s; cbn; constructor.
  - apply IH.
  - apply Forall_forall. intros y Hy. apply in_map_iff in Hy.
    destruct Hy as (i & <- & Hi). apply in_seq in Hi. lia.
Qed.

Lemma collect_valid_sorted cur l :
  StronglySorted Z.lt l ->
  forall acc w,
    exists r c',
      for_each l (collect_valid cur) acc w = (r, World c' (printed w)) /\
      forall valid,
        r = Done valid ->
        exists l',
          valid = acc ++ map (fun a => cur ++ [a]) l' /\
          StronglySorted Z.lt l' /\ incl l' l.
Proof.
  induction 1 as [|a l Hs IH Hall]; intros acc w; cbn [for_each].
  - exists (Done acc), (mp w). rewrite world_eta. split; [reflexivity|].
    intros valid [= <-]. exists []. cbn. rewrite app_nil_r.
    split; [reflexivity|]. split; [constructor|intros x []].
  - unfold bind at 1. unfold collect_valid at 1. unfold bind at 1.
    rewrite valid_trott_frame.
    destruct (fst (valid_trott (cur ++ [a]) (World (mp w) []))) as [b|e|];
      cbn [ret].
    + destruct (IH (if b then acc ++ [cur ++ [a]] else acc)
                  (World (set_prec (prec (mp w))) (printed w)))
        as (r & c' & Hrun & Hspec).
      exists r, c'. split; [exact Hrun|].
      intros valid Hd. destruct (Hspec valid Hd) as (l' & -> & Hs' & Hincl).
      destruct b.
      * exists (a :: l'). cbn [map]. rewrite <- app_assoc.
        split; [reflexivity|]. split.
        -- constructor; [exact Hs'|].
           apply Forall_forall. intros y Hy.
           rewrite Forall_forall in Hall. apply Hall, Hincl, Hy.
        -- intros y [<-|Hy]; [left; reflexivity|right; apply Hincl, Hy].
      * exists l'. split; [reflexivity|]. split; [exact Hs'|].
        intros y Hy. right. apply Hincl, Hy.
    + exists (Raised e), (set_prec (prec (mp w))).
      split; [reflexivity|discriminate].
    + exists OutOfFuel, (set_prec (prec (mp w))).
      split; [reflexivity|discriminate].
Qed.

Lemma block_sorted cur a new1 :
  listed_below (cur ++ [a]) new1 ->
  StronglySorted (fun u v => list_lt u v = true) ((cur ++ [a]) :: new1) /\
  Forall (fun x => exists ext, x = cur ++ a :: ext) ((cur ++ [a]) :: new1).
Proof.
  intros [Hs Hall]. split.
  - constructor; [exact Hs|].
    eapply Forall_impl; [|exact Hall].
    intros x (ext & -> & Hne). apply list_lt_extension, Hne.
  - constructor; [exists []; reflexivity|].
    eapply Forall_impl; [|exact Hall].
    intros x (ext & -> & _). exists ext. rewrite <- app_assoc. reflexivity.
Qed.

Lemma report_loop_sorted (rec : list Z -> M unit) cur :
  (forall v w,
     exists r c' new,
       rec v w = (r, World c' (printed w ++ new)) /\ listed_below v new) ->
  forall l' w,
    StronglySorted Z.lt l' ->
    exists r c' new,
      for_each (map (fun a => cur ++ [a]) l') (fun _ v => print v ;; rec v) tt w
      = (r, World c' (printed w ++ new)) /\
      StronglySorted (fun u v => list_lt u v = true) new /\
      Forall (fun x => exists a ext, In a l' /\ x = cur ++ a :: ext) new.
Proof.
  intros Hrec. induction l' as [|a l' IH]; intros w Hs.
  - exists (Done tt), (mp w), []. cbn. rewrite app_nil_r, world_eta.
    split; [reflexivity|]. split; constructor.
  - inversion Hs as [|? ? Hs' Hlt]; subst.
    cbn [map for_each]. unfold bind at 1 2. unfold print at 1.
    destruct (Hrec (cur ++ [a]) (World (mp w) (printed w ++ [cur ++ [a]])))
      as (r1 & c1 & new1 & Hrun1 & Hblock).
    rewrite Hrun1. cbn [printed].
    destruct (block_sorted _ _ _ Hblock) as [Hbs Hball].
    assert (Hball' : Forall (fun x => exists a0 ext,
                       In a0 (a :: l') /\ x = cur ++ a0 :: ext)
                       ((cur ++ [a]) :: new1)).
    { eapply Forall_impl; [|exact Hball].
      intros x (ext & ->). exists a, ext. split; [left|]; reflexivity. }
    destruct r1 as [[]|e|].
    + destruct (IH (World c1 ((printed w ++ [cur ++ [a]]) ++ new1)) Hs')
        as (r & c' & new2 & Hrun2 & Hs2 & Hall2).
      exists r, c', (((cur ++ [a]) :: new1) ++ new2).
      split; [rewrite Hrun2; cbn [printed]; rewrite <- !app_assoc;
              reflexivity|].
      split.
      * apply sorted_app; [exact Hbs|exact Hs2|].
        intros x y Hx Hy.
        rewrite Forall_forall in Hball, Hall2, Hlt.
        destruct (Hball x Hx) as (ex & ->).
        destruct (Hall2 y Hy) as (b & ey & Hb & ->).
        apply list_lt_branch, Hlt, Hb.
      * apply Forall_app. split; [exact Hball'|].
        eapply Forall_impl; [|exact Hall2].
        intros x (b & ext & Hb & ->). exists b, ext. split; [right|]; auto.
    + exists (Raised e), c1, ((cur ++ [a]) :: new1).
      rewrite <- !app_assoc. split; [reflexivity|]. split; assumption.
    + exists OutOfFuel, c1, ((cur ++ [a]) :: new1).
      rewrite <- !app_assoc. split; [reflexivity|]. split; assumption.
Qed.

Lemma listed_below_nil cur : listed_below cur [].
Proof. split; constructor. Qed.

Lemma trott_backtracking_sorted max_items max_size fuel :
  forall cur count w,
    exists r c' new,
      trott_backtracking fuel cur count max_items max_size w
      = (r, World c' (printed w ++ new)) /\
      listed_below cur new.
Proof.
  induction fuel as [|fuel IH]; intros cur count w;
    cbn [trott_backtracking];
    destruct (Z.ltb_spec count max_items) as [Hlt|Hge].
  - exists OutOfFuel, (mp w), []. split; [|apply listed_below_nil].
    rewrite app_nil_r, world_eta. reflexivity.
  - exists (Done tt), (mp w), []. split; [|apply listed_below_nil].
    cbn. rewrite app_nil_r, world_eta. reflexivity.
  - unfold bind at 1.
    destruct (collect_valid_sorted cur (Py.range 1 max_size)
                (range_sorted 1 max_size) [] w)
      as (r1 & c1 & Hrun1 & Hspec).
    rewrite Hrun1.
    destruct r1 as [valid|e|].
    + rewrite guarded_loop.
      destruct (Hspec valid eq_refl) as (l' & -> & Hs' & _).
      cbn [app].
      destruct (report_loop_sorted
                  (fun v => trott_backtracking fuel v (count + 1)
                              max_items max_size)
                  cur (fun v w' => IH v (count + 1) w')
                  l' (World c1 (printed w)) Hs')
        as (r & c' & new & Hrun & Hs & Hall).
      exists r, c', new. split; [exact Hrun|]. split; [exact Hs|].
      eapply Forall_impl; [|exact Hall].
      intros x (a & ext & _ & ->). exists (a :: ext).
      split; [reflexivity|discriminate].
    + exists (Raised e), c1, []. split; [|apply listed_below_nil].
      rewrite app_nil_r. reflexivity.
    + exists OutOfFuel, c1, []. split; [|apply listed_below_nil].
      rewrite app_nil_r. reflexivity.
  - exists (Done tt), (mp w), []. split; [|apply listed_below_nil].
    cbn. rewrite app_nil_r, world_eta. reflexivity.
Qed.


End Order.

(** X10.  Whatever its outcome, the search only appends lines, and the
    lines it appends are in strictly increasing order for Python's
    comparison of lists; in particular no line is printed twice. *)
Theorem search_prints_in_increasing_order
    (P : Provider) (fuel : nat) (current_cf : list Z) (count max_items max_size : Z)
    (w : world) :
  exists reported,
    printed (snd (trott_backtracking fuel current_cf count max_items
                    max_size w))
    = printed w ++ reported /\
    StronglySorted (fun u v => list_lt u v = true) reported /\
    NoDup reported.
Proof.
  destruct (trott_backtracking_sorted max_items max_size fuel current_cf
              count w) as (r & c' & new & Hrun & Hs & _).
  exists new. rewrite Hrun. split; [reflexivity|].
  split; [exact Hs|apply sorted_nodup, Hs].
Qed.

(** ** The family loop *)

Section Family.
Context {P : Provider}.


Lemma family_loop_run n :
  forall s prev w,
    3 * prev + 13 = 10 ^ (2 + Z.of_nat s) ->
    exists r c' new,
      for_each (map (fun k => 2 + Z.of_nat k) (seq s n)) family_step prev w
      = (r, World c' (printed w ++ new)) /\
      Forall (fun v => exists i m,
                2 + Z.of_nat s <= i < 2 + Z.of_nat (s + n) /\
                v = [3; m] /\ 3 * m + 13 = 10 ^ (i + 1)) new /\
      forall p, r = Done p -> 3 * p + 13 = 10 ^ (2 + Z.of_nat (s + n)).
Proof.
  induction n as [|n IH]; intros s prev w Hprev.
  - exists (Done prev), (mp w), []. cbn. rewrite app_nil_r, world_eta.
    split; [reflexivity|]. split; [constructor|].
    intros p [= <-]. rewrite Nat.add_0_r. exact Hprev.
  - cbn [seq map for_each]. unfold bind at 1. unfold family_step at 1.
    unfold bind at 1. rewrite valid_trott_frame.
    set (i := 2 + Z.of_nat s) in *.
    set (m := prev + 3 * 10 ^ i).
    assert (Hm : 3 * m + 13 = 10 ^ (i + 1)).
    { unfold m. replace (i + 1) with (Z.succ i) by lia.
      rewrite Z.pow_succ_r by lia. lia. }
    assert (Hnext : 3 * m + 13 = 10 ^ (2 + Z.of_nat (S s))).
    { rewrite Hm. f_equal. lia. }
    destruct (fst (valid_trott [3; m] (World (mp w) []))) as [b|e|].
    + unfold bind at 1.
      set (w1 := World (set_prec (prec (mp w))) (printed w)).
      destruct b.
      * unfold print at 1. cbn [ret].
        destruct (IH (S s) m (World (mp w1) (printed w1 ++ [[3; m]])) Hnext)
          as (r & c' & new & Hrun & Hall & Hp).
        exists r, c', ([3; m] :: new). rewrite Hrun. cbn [printed].
        rewrite <- app_assoc. split; [reflexivity|]. split.
        -- constructor.
           ++ exists i, m. split; [lia|]. split; [reflexivity|exact Hm].
           ++ eapply Forall_impl; [|exact Hall].
              intros v (j & q & Hj & Hv & Hq). exists j, q.
              split; [lia|]. split; assumption.
        -- intros p Hd. rewrite (Hp p Hd). f_equal. lia.
      * cbn [ret].
        destruct (IH (S s) m w1 Hnext) as (r & c' & new & Hrun & Hall & Hp).
        exists r, c', new. rewrite Hrun. split; [reflexivity|]. split.
        -- eapply Forall_impl; [|exact Hall].
           intros v (j & q & Hj & Hv & Hq). exists j, q.
           split; [lia|]. split; assumption.
        -- intros p Hd. rewrite (Hp p Hd). f_equal. lia.
    + exists (Raised e), (set_prec (prec (mp w))), []. rewrite app_nil_r.
      split; [reflexivity|]. split; [constructor|discriminate].
    + exists OutOfFuel, (set_prec (prec (mp w))), []. rewrite app_nil_r.
      split; [reflexivity|]. split; [constructor|discriminate].
Qed.


End Family.

(** X11.  The family loop only appends lines of the form [[3, m]] with
    [3 * m + 13 = 10 ^ (i + 1)] for an [i] of its range, that is
    [m = 33...329] with [i - 1] threes; when it ends normally, the last
    [prev] satisfies [3 * prev + 13 = 10 ^ stop] (or is the initial
    [29] when the range is empty). *)
Theorem family_loop_tests_threes_then_29
    (P : Provider) (stop : Z) (w : world) :
  exists r c' reported,
    family_loop stop w = (r, World c' (printed w ++ reported)) /\
    Forall (fun v => exists i m,
              2 <= i < stop /\ v = [3; m] /\ 3 * m + 13 = 10 ^ (i + 1))
      reported /\
    forall prev, r = Done prev -> 3 * prev + 13 = 10 ^ Z.max 2 stop.
Proof.
  unfold family_loop, Py.range.
  destruct (family_loop_run (Z.to_nat (stop - 2)) 0 29 w eq_refl)
    as (r & c' & new & Hrun & Hall & Hp).
  exists r, c', new. split; [exact Hrun|]. split.
  - eapply Forall_impl; [|exact Hall].
    intros v (i & m & Hi & Hv & Hm). exists i, m.
    split; [lia|]. split; assumption.
  - intros prev Hd. rewrite (Hp prev Hd). f_equal. lia.
Qed.

(** The cell's recorded output: seventeen lines, the member with
    twenty digits is turned down. *)
Example family_loop_recorded :
  @family_loop Mpmath.provider 20 Mpmath.start
  = (Done 33333333333333333329,
     World Mpmath.default_context
       [[3; 329]; [3; 3329]; [3; 33329]; [3; 333329]; [3; 3333329];
        [3; 33333329]; [3; 333333329]; [3; 3333333329]; [3; 33333333329];
        [3; 333333333329]; [3; 3333333333329]; [3; 33333333333329];
        [3; 333333333333329]; [3; 3333333333333329];
        [3; 33333333333333329]; [3; 333333333333333329];
        [3; 3333333333333333329]]).
Proof. vm_compute. reflexivity. Qed.

Section Exactly.
Context {P : Provider}.

Lemma reported_fully_valid c cur budget max_size new v :
  reported_ok c cur budget max_size new ->
  In v new ->
  exists ext,
    v = cur ++ ext /\ ext <> [] /\
    Z.of_nat (List.length ext) <= budget /\
    Forall (fun t => 1 <= t < max_size) ext /\
    fully_valid c cur ext.
Proof.
  intros [Hall Hclosed] Hin.
  destruct (Hall v Hin) as (ext & -> & Hne & Hlen & Hrange & Hv).
  exists ext. split; [reflexivity|]. do 3 (split; [assumption|]).
  intros q [rest ->] Hq.
  destruct rest as [|t rest]; [rewrite app_nil_r in Hv; exact Hv|].
  destruct (in_split _ _ Hin) as (l1 & l2 & ->).
  assert (Hp : In (cur ++ q) l1).
  { apply (Hclosed l1 (cur ++ q ++ t :: rest) l2 (cur ++ q) eq_refl).
    - exists (t :: rest). rewrite <- app_assoc. reflexivity.
    - rewrite !length_app. cbn [List.length].
      destruct q; [congruence|cbn [List.length]; lia]. }
  destruct (Hall (cur ++ q)) as (ext' & _ & _ & _ & _ & Hv').
  { apply in_or_app. left. exact Hp. }
  exact Hv'.
Qed.


End Exactly.

(** X9.  When the search ends normally in a context that an assignment
    to [mp.prec] leaves alone, the lines it appends are exactly the
    proper extensions of [current_cf], by at most [max_items - count]
    terms of [range(1, max_size)], all of whose intermediate sequences
    the predicate accepts. *)
Theorem search_reports_exactly_the_fully_valid
    (P : Provider) (fuel : nat) (current_cf : list Z) (count max_items max_size : Z)
    (w : world) :
  ctx_ok (mp w) ->
  fst (trott_backtracking fuel current_cf count max_items max_size w)
  = Done tt ->
  exists reported,
    printed (snd (trott_backtracking fuel current_cf count max_items
                    max_size w))
    = printed w ++ reported /\
    forall v,
      In v reported <->
      exists ext,
        v = current_cf ++ ext /\ ext <> [] /\
        Z.of_nat (List.length ext) <= max_items - count /\
        Forall (fun t => 1 <= t < max_size) ext /\
        fully_valid (mp w) current_cf ext.
Proof.
  intros Hok Hdone.
  destruct (trott_backtracking_run max_items max_size fuel current_cf count
              w Hok) as (r & new & Hrun & Hnew).
  rewrite Hrun in Hdone |- *. cbn [fst] in Hdone. subst r.
  exists new. split; [reflexivity|].
  intros v. split.
  - apply (reported_fully_valid _ _ _ _ _ _ Hnew).
  - intros (ext & -> & Hne & Hlen & Hrange & Hvalid).
    apply (trott_backtracking_complete max_items max_size fuel current_cf
             count w new Hok Hrun ext Hne Hlen Hrange Hvalid).
Qed.

Lemma search_reports_exactly_the_fully_valid_witness :
  exists reported,
    printed (snd (@trott_backtracking Mpmath.provider 3 [] 0 3 60
                    Mpmath.start))
    = printed Mpmath.start ++ reported /\
    forall v,
      In v reported <->
      exists ext,
        v = [] ++ ext /\ ext <> [] /\
        Z.of_nat (List.length ext) <= 3 - 0 /\
        Forall (fun t => 1 <= t < 60) ext /\
        @fully_valid Mpmath.provider (mp Mpmath.start) [] ext.
Proof.
  apply (search_reports_exactly_the_fully_valid Mpmath.provider 3 [] 0 3 60
           Mpmath.start).
  - vm_compute. reflexivity.
  - vm_compute. reflexivity.
Defined.


(** ** The evaluator of the draft notebook *)

Module DraftFacts.

Import Mpmath MpmathFacts.


Lemma trailing_pos_odd p :
  Z.odd (Z.shiftr (Zpos p) (trailing_pos p)) = true.
Proof.
  induction p as [p IH|p IH|]; cbn [trailing_pos]; try reflexivity.
  pose proof (trailing_pos_nonneg p) as Hn.
  replace (trailing_pos p + 1) with (1 + trailing_pos p) by lia.
  rewrite <- Z.shiftr_shiftr by lia. exact IH.
Qed.

Lemma trailing_odd m : Z.odd m = true -> trailing m = 0.
Proof.
  destruct m as [|p|p]; try reflexivity.
  destruct p; cbn; try reflexivity. discriminate.
Qed.

Lemma stripped_odd m : 0 < m -> Z.odd (Z.shiftr m (trailing m)) = true.
Proof.
  intros Hm. destruct m as [|p|p]; try lia. apply trailing_pos_odd.
Qed.

Lemma normalize_normalized sg m e prec :
  0 <= m -> 1 <= prec -> normalized prec (normalize sg m e (bitcount m) prec).
Proof.
  intros Hm0 Hprec. unfold normalize.
  destruct (Z.eqb_spec m 0) as [|Hne]; [left; reflexivity|].
  assert (Hm : 0 < m) by lia. right.
  destruct (Z.gtb_spec (bitcount m - prec) 0) as [Hn|Hn].
  - destruct (round_stage m e prec Hm Hprec ltac:(lia))
      as (Hm1 & Hbc1 & _ & _).
    set (m1 := round_man m (bitcount m - prec)) in *.
    destruct (trailing_spec m1 Hm1) as (Ht & Es & Hq).
    cbn [sign man exp bc].
    split; [exact Hq|]. split; [apply stripped_odd, Hm1|].
    split; [apply strip_bc; assumption|].
    destruct (Z.shiftr m1 (trailing m1) =? 1); lia.
  - destruct (trailing_spec m Hm) as (Ht & Es & Hq).
    cbn [sign man exp bc].
    split; [exact Hq|]. split; [apply stripped_odd, Hm|].
    split; [apply strip_bc; auto|].
    destruct (Z.shiftr m (trailing m) =? 1); lia.
Qed.

Lemma normalized_wf prec r : normalized prec r -> well_formed r.
Proof.
  intros [->|(Hm & _ & Hbc & _)]; [split; [cbn; lia|reflexivity]|].
  split; [lia|exact Hbc].
Qed.

Lemma mpf_pos_normalized prec r :
  1 <= prec -> normalized prec r -> mpf_pos r prec = r.
Proof.
  intros Hprec [->|(Hm & Hodd & Hbc & Hle)]; [reflexivity|].
  destruct r as [sg m e b]. cbn [sign man exp bc] in *.
  unfold mpf_pos, normalize. cbn [sign man exp bc].
  destruct (Z.eqb_spec m 0); [lia|].
  destruct (Z.gtb_spec (b - prec) 0); [lia|].
  rewrite (trailing_odd m Hodd), Z.shiftr_0_r, Z.add_0_r, Z.sub_0_r.
  destruct (Z.eqb_spec m 1) as [->|]; [|reflexivity].
  rewrite Hbc. reflexivity.
Qed.

Lemma from_int_wf n : well_formed (from_int n).
Proof.
  unfold from_int, from_man_exp.
  destruct (Z.eqb_spec (Z.abs n) 0); [split; [cbn; lia|reflexivity]|].
  assert (Hm : 0 < Z.abs n) by lia.
  destruct (trailing_spec _ Hm) as (Ht & Es & Hq).
  split; cbn [man bc]; [lia|].
  symmetry. apply (bitcount_strip (Z.abs n)); assumption.
Qed.

Lemma add_aligned_nonneg ssign sman tsign tman :
  0 <= sman -> 0 <= tman -> 0 <= snd (add_aligned ssign sman tsign tman).
Proof.
  intros Hs Ht. unfold add_aligned.
  destruct (ssign =? tsign); [cbn; lia|].
  match goal with |- context [if ?c >=? 0 then _ else _] =>
    destruct (Z.geb_spec c 0) end; cbn; lia.
Qed.

Lemma mpf_add_form x y prec :
  well_formed x -> well_formed y -> 1 <= prec ->
  exists sg m e, 0 <= m /\ mpf_add x y prec = normalize sg m e (bitcount m) prec.
Proof.
  intros [Hx Hbx] [Hy Hby] Hprec. unfold mpf_add.
  destruct (Z.eqb_spec (man x) 0) as [Ex|Nx]; cbn [negb andb].
  { exists (sign y), (man y), (exp y). split; [exact Hy|].
    unfold mpf_pos. rewrite Hby. reflexivity. }
  destruct (Z.eqb_spec (man y) 0) as [Ey|Ny]; cbn [negb andb].
  { exists (sign x), (man x), (exp x). split; [exact Hx|].
    unfold mpf_pos. rewrite Hbx. reflexivity. }
  assert (Hshift : forall m k, 0 < m -> 0 <= k -> 1 <= Z.shiftl m k).
  { intros m k Hm Hk. rewrite Z.shiftl_mul_pow2 by exact Hk.
    pose proof (pow2_pos k Hk). nia. }
  destruct (Z.gtb_spec (exp x - exp y) 0) as [Hoff|Hoff].
  - match goal with |- context [if ?c then _ else _] => destruct c end.
    + eexists _, _, _. split; [|reflexivity].
      pose proof (Hshift (man x) (prec + 4) ltac:(lia) ltac:(lia)).
      destruct (sign y =? sign x); lia.
    + pose proof (add_aligned_nonneg (sign x)
                    (Z.shiftl (man x) (exp x - exp y)) (sign y) (man y)) as Hn.
      destruct (add_aligned _ _ _ _) as [sg m]. cbn [snd] in Hn.
      eexists _, _, _. split; [|reflexivity]. apply Hn; [|exact Hy].
      pose proof (Hshift (man x) (exp x - exp y) ltac:(lia) ltac:(lia)). lia.
  - destruct (Z.ltb_spec (exp x - exp y) 0) as [Hoff'|Hoff'].
    + match goal with |- context [if ?c then _ else _] => destruct c end.
      * eexists _, _, _. split; [|reflexivity].
        pose proof (Hshift (man y) (prec + 4) ltac:(lia) ltac:(lia)).
        destruct (sign x =? sign y); lia.
      * pose proof (add_aligned_nonneg (sign x) (man x) (sign y)
                      (Z.shiftl (man y) (- (exp x - exp y)))) as Hn.
        destruct (add_aligned _ _ _ _) as [sg m]. cbn [snd] in Hn.
        eexists _, _, _. split; [|reflexivity]. apply Hn; [exact Hx|].
        pose proof (Hshift (man y) (- (exp x - exp y)) ltac:(lia) ltac:(lia)).
        lia.
    + pose proof (add_aligned_nonneg (sign x) (man x) (sign y) (man y)
                    Hx Hy) as Hn.
      destruct (add_aligned _ _ _ _) as [sg m]. cbn [snd] in Hn.
      eexists _, _, _. split; [exact Hn|reflexivity].
Qed.

Lemma mpf_add_normalized x y prec :
  well_formed x -> well_formed y -> 1 <= prec -> normalized prec (mpf_add x y prec).
Proof.
  intros Hx Hy Hprec.
  destruct (mpf_add_form x y prec Hx Hy Hprec) as (sg & m & e & Hm & ->).
  apply normalize_normalized; assumption.
Qed.

Lemma mpf_rdiv_int_wf y prec q :
  well_formed y -> 1 <= prec -> mpf_rdiv_int 1 y prec = Some q -> well_formed q.
Proof.
  intros [Hy Hby] Hprec. unfold mpf_rdiv_int. cbn [Z.eqb orb].
  destruct (Z.eqb_spec (man y) 0) as [Ey|Ny].
  - unfold mpf_div. rewrite Ey. cbn. discriminate.
  - cbn [Z.ltb Z.compare Z.abs]. intros [= <-].
    apply (normalized_wf prec). unfold div_man.
    set (num := Z.shiftl 1 (prec + bc y + 4)).
    assert (Hnum : 0 <= num) by (apply Z.shiftl_nonneg; lia).
    assert (Hquot : 0 <= num / man y) by (apply Z.div_pos; lia).
    destruct (num mod man y =? 0).
    + apply normalize_normalized; assumption.
    + apply normalize_normalized; [|exact Hprec].
      rewrite Z.shiftl_mul_pow2 by lia. lia.
Qed.

End DraftFacts.

Section DraftEvaluator.

#[local] Existing Instance Mpmath.provider.


Lemma same_denominator p item v x :
  1 <= p -> same_value v x ->
  py_mpf p (py_add p item v) = mpf_add_int p item x /\
  well_formed (mpf_add_int p item x).
Proof.
  intros Hp [[-> ->]|[-> Hx]]; cbn [py_add py_mpf].
  - change (@mpf_of_int Mpmath.provider p (item + 0))
      with (Mpmath.mpf_pos (Mpmath.from_int (item + 0)) p).
    change (@mpf_add_int Mpmath.provider p item Mpmath.fzero)
      with (Mpmath.mpf_add Mpmath.fzero (Mpmath.from_int item) p).
    rewrite Z.add_0_r. split; [reflexivity|].
    apply (DraftFacts.normalized_wf p).
    apply DraftFacts.mpf_add_normalized;
      [split; [cbn; lia|reflexivity]| |exact Hp].
    apply DraftFacts.from_int_wf.
  - change (@mpf_pos Mpmath.provider p (@mpf_add_int Mpmath.provider p item x))
      with (Mpmath.mpf_pos (Mpmath.mpf_add x (Mpmath.from_int item) p) p).
    change (@mpf_add_int Mpmath.provider p item x)
      with (Mpmath.mpf_add x (Mpmath.from_int item) p).
    pose proof (DraftFacts.mpf_add_normalized x (Mpmath.from_int item) p Hx
                  (DraftFacts.from_int_wf item) Hp) as Hn.
    split; [apply DraftFacts.mpf_pos_normalized; assumption|].
    apply (DraftFacts.normalized_wf p), Hn.
Qed.

Lemma same_loop l :
  forall v x w,
    1 <= prec (mp w) -> same_value v x -> l <> [] ->
    for_each l cf_step v w
    = (as_pyval (fst (for_each l Draft.cf_step x w)),
       snd (for_each l Draft.cf_step x w)).
Proof.
  induction l as [|item l IH]; intros v x w Hp Hv Hne; [congruence|].
  cbn [for_each]. unfold bind at 1 2 3.
  unfold cf_step at 1, Draft.cf_step at 1 3, bind, get_mp.
  destruct (same_denominator (prec (mp w)) item v x Hp Hv) as [-> Hwf].
  destruct (@mpf_rdiv_int Mpmath.provider (prec (mp w)) 1
              (@mpf_add_int Mpmath.provider (prec (mp w)) item x))
    as [q|] eqn:Hq; cbn [ret raise fst snd as_pyval]; [|reflexivity].
  destruct l as [|item' l]; [reflexivity|].
  apply IH; [exact Hp| |discriminate].
  right. split; [reflexivity|].
  apply (DraftFacts.mpf_rdiv_int_wf _ _ _ Hwf Hp Hq).
Qed.

End DraftEvaluator.

(** X12.  On the [mpmath] provider the evaluator of the draft notebook,
    asked for [mp.dps + precision + 1] digits, gives on a non-empty
    sequence the outcome, the value and the final state of the final
    evaluator asked for [precision]: starting from [mpf(0)] and leaving
    out the conversion [mpf(...)] of the denominator change nothing. *)
Theorem draft_evaluator_agrees (S : list Z) (precision : Z) (w : world) :
  S <> [] ->
  let draft :=
    @Draft.cf_to_real Mpmath.provider S (dps (mp w) + (precision + 1)) w in
  @cf_to_real Mpmath.provider S precision w
  = (as_pyval (fst draft), snd draft).
Proof.
  intros Hne draft. unfold draft, cf_to_real, Draft.cf_to_real, extradps,
    Draft.workdps.
  unfold bind at 1 2, get_mp.
  set (inside := World (@set_dps Mpmath.provider
                          (dps (mp w) + (precision + 1))) (printed w)).
  rewrite (same_loop (rev S) (@PyInt Mpmath.provider 0) Mpmath.fzero inside).
  - change (@mpf_of_int Mpmath.provider (prec (mp inside)) 0)
      with Mpmath.fzero.
    destruct (@for_each _ _ (rev S) (@Draft.cf_step Mpmath.provider)
                Mpmath.fzero inside) as [r w'].
    reflexivity.
  - unfold inside. cbn. unfold Mpmath.dps_to_prec. lia.
  - left. split; reflexivity.
  - intros E. apply Hne. rewrite <- (rev_involutive S), E. reflexivity.
Qed.

Lemma draft_evaluator_agrees_witness :
  let draft :=
    @Draft.cf_to_real Mpmath.provider [3; 29; 5; 7]
      (dps (mp Mpmath.start) + (5 + 1)) Mpmath.start in
  @cf_to_real Mpmath.provider [3; 29; 5; 7] 5 Mpmath.start
  = (as_pyval (fst draft), snd draft).
Proof.
  apply (draft_evaluator_agrees [3; 29; 5; 7] 5 Mpmath.start).
  discriminate.
Defined.

(** The draft's test cell, [print(cf_to_real(cf, count_digits(cf)))]
    inside [with mp.workdps(count_digits(cf) + 1)] for
    [cf = [3, 29, 5, 7]], prints [0.32957]. *)
Example draft_test_cell_recorded :
  fst (@Draft.workdps Mpmath.provider _ 6
         (v <- @Draft.cf_to_real Mpmath.provider [3; 29; 5; 7] 5 ;;
          c <- get_mp ;;
          ret (@mpf_str Mpmath.provider (dps c) v))
         Mpmath.start)
  = Done "0.32957".
Proof. vm_compute. reflexivity. Qed.
